(** * glutils: the ownership guard and the buffer / vertex-array wrappers

    A shallow embedding of
    - [include/glutils/guard.hpp]        (template [Guard<HandleType>]),
    - [include/glutils/buffer.hpp]       (class [BufferHandle]),
    - [include/glutils/vertex_array.hpp] (class [VertexArray]),
    together with the properties the specification states about them. *)

From Stdlib Require Import ZArith List Lia.
From stdpp Require Import base option list gmap.

(* ===================================================================== *)
(** * Part I: the programs                                                *)
(* ===================================================================== *)

(* ===================================================================== *)
(** * guard.hpp                                                           *)
(* ===================================================================== *)

Module GuardModel.

(** The two static members of [HandleType] that [Guard] calls.  Both are
    foreign to the template: a run records them, in program order. *)
Inductive Call (A H : Type) : Type :=
| CallCreate (args : A) (ret : H)     (* HandleType::create(args...) returned ret *)
| CallDestroy (handle : H).           (* HandleType::destroy(handle)              *)
Arguments CallCreate {A H} args ret.
Arguments CallDestroy {A H} handle.

(** What the template needs of its parameter:
    - [CreateArgs]: the argument lists [HandleType::create] accepts
      (the pack [Args...], as one tuple type);
    - [HandleType_default]: the value-initialised handle [HandleType()];
    - [create_returns]: the handle [HandleType::create] hands back, as a
      function of its arguments and of the calls made so far. *)
Class HandleType (H : Type) : Type := {
  CreateArgs : Type;
  HandleType_default : H;
  create_returns : CreateArgs -> list (Call CreateArgs H) -> H;
}.

Section Guard.
Context {H : Type} {HT : HandleType H}.

(** [private: HandleType m_handle;] *)
Record Guard : Type := mkGuard { m_handle : H }.

(** Guard objects are referred to by address ([this], [other]): the
    store maps the address of every live Guard to its contents, so that
    [g = std::move(g)] really passes the same object twice. *)
Record World : Type := mkWorld {
  objects : gmap nat Guard;
  calls   : list (Call CreateArgs H);
}.

Definition World_initial : World := mkWorld ∅ [].

(** Computations over the world; [None] is a use of an object outside
    its lifetime (undefined in C++). *)
Definition M (A : Type) : Type := World -> option (A * World).

Definition ret {A} (a : A) : M A := fun w => Some (a, w).

Definition bind {A B} (m : M A) (k : A -> M B) : M B :=
  fun w => match m w with
           | Some (a, w') => k a w'
           | None => None
           end.

Notation "'let*' x ':=' m 'in' k" := (bind m (fun x => k))
  (at level 10, x name, m at level 100, k at level 200).

(** ** The foreign calls *)

Definition create (args : CreateArgs) : M H :=
  fun w => let h := create_returns args (calls w) in
           Some (h, mkWorld (objects w) (calls w ++ [CallCreate args h])).

Definition destroy (handle : H) : M unit :=
  fun w => Some (tt, mkWorld (objects w) (calls w ++ [CallDestroy handle])).

(** ** Access to the member of a live object *)

Definition read_m_handle (this : nat) : M H :=
  fun w => match objects w !! this with
           | Some g => Some (m_handle g, w)
           | None => None
           end.

Definition write_m_handle (this : nat) (h : H) : M unit :=
  fun w => match objects w !! this with
           | Some _ => Some (tt, mkWorld (<[this := mkGuard h]> (objects w)) (calls w))
           | None => None
           end.

(** Member initialisation [: m_handle(h)] of an object whose lifetime
    begins at [this]. *)
Definition init_m_handle (this : nat) (h : H) : M unit :=
  fun w => match objects w !! this with
           | Some _ => None
           | None => Some (tt, mkWorld (<[this := mkGuard h]> (objects w)) (calls w))
           end.

(** End of the lifetime of the object at [this]. *)
Definition end_lifetime (this : nat) : M unit :=
  fun w => match objects w !! this with
           | Some _ => Some (tt, mkWorld (delete this (objects w)) (calls w))
           | None => None
           end.

(** ** The members of [Guard], in the order of the header *)

(** [Guard(Args... args) : m_handle(HandleType::create(args...)) {}] *)
Definition Guard_ctor (this : nat) (args : CreateArgs) : M unit :=
  let* h := create args in
  init_m_handle this h.

(** [explicit Guard(HandleType handle) : m_handle(handle) {}] *)
Definition Guard_ctor_handle (this : nat) (handle : H) : M unit :=
  init_m_handle this handle.

(** [~Guard() { HandleType::destroy(m_handle); }] *)
Definition Guard_dtor (this : nat) : M unit :=
  let* h := read_m_handle this in
  let* _ := destroy h in
  end_lifetime this.

(** [auto getHandle() const -> HandleType { return m_handle; }] *)
Definition getHandle (this : nat) : M H := read_m_handle this.

(** [auto release() -> HandleType]
    {[ auto copy = m_handle; m_handle = HandleType(); return copy; ]} *)
Definition release (this : nat) : M H :=
  let* copy := read_m_handle this in
  let* _ := write_m_handle this HandleType_default in
  ret copy.

(** [void reset(HandleType new_handle)]
    {[ HandleType::destroy(m_handle); m_handle = new_handle; ]} *)
Definition reset (this : nat) (new_handle : H) : M unit :=
  let* h := read_m_handle this in
  let* _ := destroy h in
  write_m_handle this new_handle.

(** [Guard(Guard &&other) noexcept : m_handle(other.release()) {}] *)
Definition Guard_ctor_move (this other : nat) : M unit :=
  let* h := release other in
  init_m_handle this h.

(** [auto operator=(Guard &&other) noexcept -> Guard &]
    {[ reset(other.release()); return *this; ]}
    The argument [other.release()] is evaluated before [reset] runs. *)
Definition operator_assign (this other : nat) : M nat :=
  let* h := release other in
  let* _ := reset this h in
  ret this.

(** ** Sequences of operations *)

Inductive Op : Type :=
| OpCtor (this : nat) (args : CreateArgs)       (* Guard g(args...);        *)
| OpCtorHandle (this : nat) (handle : H)        (* Guard g(handle);         *)
| OpCtorMove (this other : nat)                 (* Guard g(std::move(o));   *)
| OpAssign (this other : nat)                   (* g = std::move(o);        *)
| OpRelease (this : nat)                        (* g.release();             *)
| OpReset (this : nat) (new_handle : H)         (* g.reset(new_handle);     *)
| OpDtor (this : nat).                          (* g.~Guard()               *)

Definition exec (op : Op) : M unit :=
  match op with
  | OpCtor this args => Guard_ctor this args
  | OpCtorHandle this handle => Guard_ctor_handle this handle
  | OpCtorMove this other => Guard_ctor_move this other
  | OpAssign this other => let* _ := operator_assign this other in ret tt
  | OpRelease this => let* _ := release this in ret tt
  | OpReset this new_handle => reset this new_handle
  | OpDtor this => Guard_dtor this
  end.

Fixpoint run (ops : list Op) : M unit :=
  match ops with
  | [] => ret tt
  | op :: rest => let* _ := exec op in run rest
  end.

End Guard.

Arguments Guard H : clear implicits.
Arguments World H {HT}.
Arguments Op H {HT}.
Arguments M H {HT} A.

(** ** Ownership *)

Section Ownership.
Context {H : Type} {HT : HandleType H} `{!EqDecision H}.
Implicit Types (w : World H) (o : gmap nat (Guard H))
  (cs : list (Call CreateArgs H)) (h : H).

Abbreviation null := HandleType_default.

(** How often [HandleType::destroy] was invoked on [h]. *)
Fixpoint destroy_count (h : H) (cs : list (Call CreateArgs H)) : nat :=
  match cs with
  | [] => 0
  | CallDestroy h' :: rest =>
      (if decide (h' = h) then 1 else 0) + destroy_count h rest
  | CallCreate _ _ :: rest => destroy_count h rest
  end.

(** The live Guard at address [p] holds [h]. *)
Definition owns (w : World H) (p : nat) (h : H) : Prop :=
  objects w !! p = Some (mkGuard h).

Definition single_owner (w : World H) : Prop :=
  forall p q h, h <> null -> owns w p h -> owns w q h -> p = q.

Definition destroyed_at_most_once (w : World H) : Prop :=
  forall h, h <> null -> destroy_count h (calls w) <= 1.

(** A handle held by a live Guard has not been destroyed. *)
Definition owned_not_destroyed (w : World H) : Prop :=
  forall p h, h <> null -> owns w p h -> destroy_count h (calls w) = 0.

Definition exclusive_ownership (w : World H) : Prop :=
  single_owner w /\ destroyed_at_most_once w.

Definition ownership_invariant (w : World H) : Prop :=
  single_owner w /\ destroyed_at_most_once w /\ owned_not_destroyed w.

(** [h] may be handed to a Guard: it is null, or no live Guard holds it
    and it has not been destroyed. *)
Definition unowned (w : World H) (h : H) : Prop :=
  map_Forall (fun _ g => m_handle g <> h) (objects w).

Definition fresh (w : World H) (h : H) : Prop :=
  h = null \/ (unowned w h /\ destroy_count h (calls w) = 0).

(** The handles that enter a Guard from outside do so through the
    forwarding constructor (what [create] returns), the constructor for
    an existing object, and [reset]. *)
Definition admissible (w : World H) (op : Op H) : Prop :=
  match op with
  | OpCtor _ args => fresh w (create_returns args (calls w))
  | OpCtorHandle _ handle => fresh w handle
  | OpReset _ new_handle => fresh w new_handle
  | _ => True
  end.

#[export] Instance fresh_dec w h : Decision (fresh w h).
Proof. unfold fresh, unowned. apply _. Defined.

#[export] Instance admissible_dec w op : Decision (admissible w op).
Proof. destruct op; simpl; apply _. Defined.

(** Runs all of whose steps are defined and admissible. *)
Inductive disciplined : World H -> list (Op H) -> World H -> Prop :=
| disciplined_nil w : disciplined w [] w
| disciplined_cons w op w1 ops w2 :
    admissible w op ->
    exec op w = Some (tt, w1) ->
    disciplined w1 ops w2 ->
    disciplined w (op :: ops) w2.

(** The same runs, computed. *)
Fixpoint run_disciplined (ops : list (Op H)) (w : World H) : option (World H) :=
  match ops with
  | [] => Some w
  | op :: rest =>
      if decide (admissible w op) then
        match exec op w with
        | Some (_, w1) => run_disciplined rest w1
        | None => None
        end
      else None
  end.

(** The state after one operation of a sequence, read off the code. *)
Definition exec_post (op : Op H) (w w' : World H) : Prop :=
  match op with
  | OpCtor this args =>
      objects w !! this = None /\
      w' = mkWorld (<[this := mkGuard (create_returns args (calls w))]> (objects w))
                   (calls w ++ [CallCreate args (create_returns args (calls w))])
  | OpCtorHandle this h =>
      objects w !! this = None /\
      w' = mkWorld (<[this := mkGuard h]> (objects w)) (calls w)
  | OpCtorMove this other =>
      exists g, objects w !! this = None /\ objects w !! other = Some g /\
      w' = mkWorld (<[this := mkGuard (m_handle g)]>
                      (<[other := mkGuard HandleType_default]> (objects w)))
                   (calls w)
  | OpAssign this other =>
      exists gd gs g1,
      objects w !! this = Some gd /\ objects w !! other = Some gs /\
      <[other := mkGuard HandleType_default]> (objects w) !! this = Some g1 /\
      w' = mkWorld (<[this := mkGuard (m_handle gs)]>
                      (<[other := mkGuard HandleType_default]> (objects w)))
                   (calls w ++ [CallDestroy (m_handle g1)])
  | OpRelease this =>
      exists g, objects w !! this = Some g /\
      w' = mkWorld (<[this := mkGuard HandleType_default]> (objects w)) (calls w)
  | OpReset this h =>
      exists g, objects w !! this = Some g /\
      w' = mkWorld (<[this := mkGuard h]> (objects w))
                   (calls w ++ [CallDestroy (m_handle g)])
  | OpDtor this =>
      exists g, objects w !! this = Some g /\
      w' = mkWorld (delete this (objects w)) (calls w ++ [CallDestroy (m_handle g)])
  end.

End Ownership.

(** ** A handle type to run the template on

    Object names are numbers and 0 is the null name, as for OpenGL objects;
    [create] takes no argument and hands out the names 1, 2, ... in turn. *)
Definition NameHandle : HandleType nat :=
  {| CreateArgs := unit;
     HandleType_default := 0;
     create_returns := fun _ cs => S (length cs) |}.

Section Examples.
#[local] Existing Instance NameHandle.

(** Guards at addresses 0 and 1 holding the names 5 and 6. *)
Definition two_guards : World nat :=
  mkWorld (<[1 := mkGuard 6]> (<[0 := mkGuard 5]> ∅)) [].

(** A Guard at address 0 in the null state, one at address 1 holding 6. *)
Definition null_guard : World nat :=
  mkWorld (<[1 := mkGuard 6]> (<[0 := mkGuard 0]> ∅)) [].

(** {[ Guard a;  Guard b(std::move(a));  Guard c;  c = std::move(b);
       a.release();  c.reset(HandleType());  ~c; ~b; ~a; ]} *)
Definition example_ops : list (Op nat) :=
  [OpCtor 0 tt; OpCtorMove 1 0; OpCtor 2 tt; OpAssign 2 1;
   OpRelease 0; OpReset 2 0; OpDtor 2; OpDtor 1; OpDtor 0].

(** {[ Guard a(h);  Guard b(h);  ~b;  ~a; ]} with [h] the name 7. *)
Definition shared_ops : list (Op nat) :=
  [OpCtorHandle 0 7; OpCtorHandle 1 7; OpDtor 1; OpDtor 0].

End Examples.

(** ** Evaluating the members in proofs *)

Ltac member_unfold :=
  unfold Guard_ctor, Guard_ctor_handle, Guard_ctor_move, Guard_dtor,
    operator_assign, reset, release, getHandle, create, destroy,
    read_m_handle, write_m_handle, init_m_handle, end_lifetime, bind, ret.

Ltac member_eval :=
  member_unfold; simpl;
  repeat (match goal with
          | E : ?o !! ?p = _ |- context [?o !! ?p] => rewrite E
          | |- context [<[?p := ?x]> ?o !! ?p] => rewrite (lookup_insert_eq o p x)
          | Hne : ?p ≠ ?q |- context [<[?q := ?x]> ?o !! ?p] =>
              rewrite (lookup_insert_ne o q p x) by congruence
          | Hne : ?q ≠ ?p |- context [<[?q := ?x]> ?o !! ?p] =>
              rewrite (lookup_insert_ne o q p x) by congruence
          end; simpl).

Ltac member_inv Hx :=
  repeat (simpl in Hx;
          match type of Hx with
          | None = Some _ => discriminate Hx
          | context [?o !! ?p] =>
              match goal with E : o !! p = _ |- _ => rewrite E in Hx end
          | context [match ?o !! ?p with _ => _ end] => destruct (o !! p) eqn:?
          end).

End GuardModel.

(* ===================================================================== *)
(** * The OpenGL scalar types and enumerants                              *)
(* ===================================================================== *)

Module GL.

(** [GLenum], [GLuint] and [GLbitfield] are 32-bit unsigned integers:
    [static_cast<GLenum>] reduces modulo [2^32]. *)
Definition GLenum_cast (z : Z) : Z := (z mod 2 ^ 32)%Z.

(** [GLsizei] is a 32-bit signed integer.  C++ leaves its overflow
    undefined; the model takes the two's-complement result. *)
Definition GLsizei_max : Z := (2 ^ 31 - 1)%Z.

Definition GLsizei_wrap (z : Z) : Z := ((z + 2 ^ 31) mod 2 ^ 32 - 2 ^ 31)%Z.

(** The enumerants the two headers stand in for or name. *)
Inductive enumerant : Type :=
| GL_BUFFER_ACCESS | GL_BUFFER_ACCESS_FLAGS | GL_BUFFER_IMMUTABLE_STORAGE
| GL_BUFFER_MAPPED | GL_BUFFER_MAP_LENGTH | GL_BUFFER_MAP_OFFSET
| GL_BUFFER_SIZE | GL_BUFFER_STORAGE_FLAGS | GL_BUFFER_USAGE
| GL_READ_ONLY | GL_WRITE_ONLY | GL_READ_WRITE
| GL_MAP_READ_BIT | GL_MAP_WRITE_BIT | GL_MAP_INVALIDATE_RANGE_BIT
| GL_MAP_INVALIDATE_BUFFER_BIT | GL_MAP_FLUSH_EXPLICIT_BIT
| GL_MAP_UNSYNCHRONIZED_BIT | GL_MAP_PERSISTENT_BIT | GL_MAP_COHERENT_BIT
| GL_DYNAMIC_STORAGE_BIT | GL_CLIENT_STORAGE_BIT
| GL_STREAM_DRAW | GL_STREAM_READ | GL_STREAM_COPY
| GL_STATIC_DRAW | GL_STATIC_READ | GL_STATIC_COPY
| GL_DYNAMIC_DRAW | GL_DYNAMIC_READ | GL_DYNAMIC_COPY
| GL_ATOMIC_COUNTER_BUFFER | GL_TRANSFORM_FEEDBACK_BUFFER
| GL_UNIFORM_BUFFER | GL_SHADER_STORAGE_BUFFER
| GL_BYTE | GL_UNSIGNED_BYTE | GL_SHORT | GL_UNSIGNED_SHORT
| GL_INT | GL_UNSIGNED_INT | GL_FIXED | GL_FLOAT | GL_HALF_FLOAT | GL_DOUBLE
| GL_INT_2_10_10_10_REV | GL_UNSIGNED_INT_2_10_10_10_REV
| GL_UNSIGNED_INT_10F_11F_11F_REV.

(** Modelled from the spec: the numeric values of the OpenGL enumerants.
    The header that defines these macros (glad's [gl.h]) is not among the
    sources.  The specification gives [GL_BUFFER_SIZE], [GL_READ_ONLY]
    and [GL_MAP_READ_BIT]; the others are the values of the OpenGL
    registry. *)
Definition GL_value (c : enumerant) : Z :=
  match c with
  | GL_BUFFER_ACCESS => 0x88BB
  | GL_BUFFER_ACCESS_FLAGS => 0x911F
  | GL_BUFFER_IMMUTABLE_STORAGE => 0x821F
  | GL_BUFFER_MAPPED => 0x88BC
  | GL_BUFFER_MAP_LENGTH => 0x9120
  | GL_BUFFER_MAP_OFFSET => 0x9121
  | GL_BUFFER_SIZE => 0x8764
  | GL_BUFFER_STORAGE_FLAGS => 0x8220
  | GL_BUFFER_USAGE => 0x8765
  | GL_READ_ONLY => 0x88B8
  | GL_WRITE_ONLY => 0x88B9
  | GL_READ_WRITE => 0x88BA
  | GL_MAP_READ_BIT => 0x0001
  | GL_MAP_WRITE_BIT => 0x0002
  | GL_MAP_INVALIDATE_RANGE_BIT => 0x0004
  | GL_MAP_INVALIDATE_BUFFER_BIT => 0x0008
  | GL_MAP_FLUSH_EXPLICIT_BIT => 0x0010
  | GL_MAP_UNSYNCHRONIZED_BIT => 0x0020
  | GL_MAP_PERSISTENT_BIT => 0x0040
  | GL_MAP_COHERENT_BIT => 0x0080
  | GL_DYNAMIC_STORAGE_BIT => 0x0100
  | GL_CLIENT_STORAGE_BIT => 0x0200
  | GL_STREAM_DRAW => 0x88E0
  | GL_STREAM_READ => 0x88E1
  | GL_STREAM_COPY => 0x88E2
  | GL_STATIC_DRAW => 0x88E4
  | GL_STATIC_READ => 0x88E5
  | GL_STATIC_COPY => 0x88E6
  | GL_DYNAMIC_DRAW => 0x88E8
  | GL_DYNAMIC_READ => 0x88E9
  | GL_DYNAMIC_COPY => 0x88EA
  | GL_ATOMIC_COUNTER_BUFFER => 0x92C0
  | GL_TRANSFORM_FEEDBACK_BUFFER => 0x8C8E
  | GL_UNIFORM_BUFFER => 0x8A11
  | GL_SHADER_STORAGE_BUFFER => 0x90D2
  | GL_BYTE => 0x1400
  | GL_UNSIGNED_BYTE => 0x1401
  | GL_SHORT => 0x1402
  | GL_UNSIGNED_SHORT => 0x1403
  | GL_INT => 0x1404
  | GL_UNSIGNED_INT => 0x1405
  | GL_FLOAT => 0x1406
  | GL_DOUBLE => 0x140A
  | GL_HALF_FLOAT => 0x140B
  | GL_FIXED => 0x140C
  | GL_INT_2_10_10_10_REV => 0x8D9F
  | GL_UNSIGNED_INT_2_10_10_10_REV => 0x8368
  | GL_UNSIGNED_INT_10F_11F_11F_REV => 0x8C3B
  end%Z.

End GL.

(* ===================================================================== *)
(** * buffer.hpp                                                          *)
(* ===================================================================== *)

Module Buffer.
Import GL.
#[local] Open Scope Z_scope.

(** Modelled from the spec: [class BufferHandle : public Handle].  The
    base class ([handle.hpp]) is not among the sources; a handle is the
    integer name of the object, which [getName()] returns. *)
Record BufferHandle : Type := mkBufferHandle { m_name : Z }.

Definition getName (b : BufferHandle) : Z := m_name b.

(** [struct Range { GLintptr offset{0}; GLsizeiptr size{0}; };] *)
Record Range : Type := mkRange { offset : Z; size : Z }.

Definition Range_default : Range := mkRange 0 0.

(** [enum class Parameter : GLenum]  ([Parameter] is a keyword here.) *)
Module BufferParameter.
Inductive t : Type :=
| Access | AccessFlags | Immutable | Mapped | MapLength | MapOffset
| Size | StorageFlags | Usage.

Definition value (e : t) : Z :=
  match e with
  | Access => 0x88BB
  | AccessFlags => 0x911F
  | Immutable => 0x821F
  | Mapped => 0x88BC
  | MapLength => 0x9120
  | MapOffset => 0x9121
  | Size => 0x8764
  | StorageFlags => 0x8220
  | Usage => 0x8765
  end.

(** The parameter each enumerator queries, after the documentation of
    the [get...] members. *)
Definition stands_for (e : t) : enumerant :=
  match e with
  | Access => GL_BUFFER_ACCESS
  | AccessFlags => GL_BUFFER_ACCESS_FLAGS
  | Immutable => GL_BUFFER_IMMUTABLE_STORAGE
  | Mapped => GL_BUFFER_MAPPED
  | MapLength => GL_BUFFER_MAP_LENGTH
  | MapOffset => GL_BUFFER_MAP_OFFSET
  | Size => GL_BUFFER_SIZE
  | StorageFlags => GL_BUFFER_STORAGE_FLAGS
  | Usage => GL_BUFFER_USAGE
  end.
End BufferParameter.

(** [enum class AccessMode : GLenum] *)
Module AccessMode.
Inductive t : Type := read_only | write_only | read_write.

Definition value (e : t) : Z :=
  match e with
  | read_only => 0x88B8
  | write_only => 0x88B9
  | read_write => 0x88BA
  end.

Definition stands_for (e : t) : enumerant :=
  match e with
  | read_only => GL_READ_ONLY
  | write_only => GL_WRITE_ONLY
  | read_write => GL_READ_WRITE
  end.
End AccessMode.

(** [enum class AccessFlags : GLenum] *)
Module AccessFlags.
Inductive enumerator : Type :=
| none | read | write | persistent | coherent
| invalidate_range | invalidate_buffer | flush_explicit | unsynchronized.

Definition value (e : enumerator) : Z :=
  match e with
  | none => 0x0000
  | read => 0x0001
  | write => 0x0002
  | persistent => 0x0040
  | coherent => 0x0080
  | invalidate_range => 0x0004
  | invalidate_buffer => 0x0008
  | flush_explicit => 0x0010
  | unsynchronized => 0x0020
  end.

(** The bit each enumerator stands for; [none] is the empty bit field. *)
Definition stands_for (e : enumerator) : option enumerant :=
  match e with
  | none => None
  | read => Some GL_MAP_READ_BIT
  | write => Some GL_MAP_WRITE_BIT
  | persistent => Some GL_MAP_PERSISTENT_BIT
  | coherent => Some GL_MAP_COHERENT_BIT
  | invalidate_range => Some GL_MAP_INVALIDATE_RANGE_BIT
  | invalidate_buffer => Some GL_MAP_INVALIDATE_BUFFER_BIT
  | flush_explicit => Some GL_MAP_FLUSH_EXPLICIT_BIT
  | unsynchronized => Some GL_MAP_UNSYNCHRONIZED_BIT
  end.

(** A value of the enumeration type: any bit pattern of its underlying
    type [GLenum], the enumerators among them. *)
Record t : Type := of_GLenum { to_GLenum : Z }.

Definition enum (e : enumerator) : t := of_GLenum (value e).

(** Modelled from the spec: [operator|] on [AccessFlags].  The header
    only declares it (the body is in [buffer.cpp], not among the
    sources); it is the bitwise OR of the underlying [GLenum] values. *)
Definition operator_or (l r : t) : t :=
  of_GLenum (Z.lor (to_GLenum l) (to_GLenum r)).

(** Modelled from the spec: [operator&] on [AccessFlags], declared only
    in the header; the bitwise AND of the underlying [GLenum] values. *)
Definition operator_and (l r : t) : t :=
  of_GLenum (Z.land (to_GLenum l) (to_GLenum r)).
End AccessFlags.

(** [enum class Usage : GLenum] *)
Module Usage.
Inductive t : Type :=
| static_draw | static_read | static_copy
| dynamic_draw | dynamic_read | dynamic_copy
| stream_draw | stream_read | stream_copy.

Definition value (e : t) : Z :=
  match e with
  | static_draw => 0x88E4
  | static_read => 0x88E5
  | static_copy => 0x88E6
  | dynamic_draw => 0x88E8
  | dynamic_read => 0x88E9
  | dynamic_copy => 0x88EA
  | stream_draw => 0x88E0
  | stream_read => 0x88E1
  | stream_copy => 0x88E2
  end.

Definition stands_for (e : t) : enumerant :=
  match e with
  | static_draw => GL_STATIC_DRAW
  | static_read => GL_STATIC_READ
  | static_copy => GL_STATIC_COPY
  | dynamic_draw => GL_DYNAMIC_DRAW
  | dynamic_read => GL_DYNAMIC_READ
  | dynamic_copy => GL_DYNAMIC_COPY
  | stream_draw => GL_STREAM_DRAW
  | stream_read => GL_STREAM_READ
  | stream_copy => GL_STREAM_COPY
  end.
End Usage.

(** [enum class StorageFlags : GLenum] *)
Module StorageFlags.
Inductive enumerator : Type :=
| none | dynamic_storage | map_read | map_write
| map_persistent | map_coherent | client_storage.

Definition value (e : enumerator) : Z :=
  match e with
  | none => 0x0000
  | dynamic_storage => 0x0100
  | map_read => 0x0001
  | map_write => 0x0002
  | map_persistent => 0x0040
  | map_coherent => 0x0080
  | client_storage => 0x0200
  end.

Definition stands_for (e : enumerator) : option enumerant :=
  match e with
  | none => None
  | dynamic_storage => Some GL_DYNAMIC_STORAGE_BIT
  | map_read => Some GL_MAP_READ_BIT
  | map_write => Some GL_MAP_WRITE_BIT
  | map_persistent => Some GL_MAP_PERSISTENT_BIT
  | map_coherent => Some GL_MAP_COHERENT_BIT
  | client_storage => Some GL_CLIENT_STORAGE_BIT
  end.

Record t : Type := of_GLenum { to_GLenum : Z }.

Definition enum (e : enumerator) : t := of_GLenum (value e).

(** Modelled from the spec: [operator|] on [StorageFlags], declared only
    in the header (the body is in [buffer.cpp], not among the sources);
    the bitwise OR of the underlying [GLenum] values. *)
Definition operator_or (l r : t) : t :=
  of_GLenum (Z.lor (to_GLenum l) (to_GLenum r)).

(** Modelled from the spec: [operator&] on [StorageFlags], declared only
    in the header; the bitwise AND of the underlying [GLenum] values. *)
Definition operator_and (l r : t) : t :=
  of_GLenum (Z.land (to_GLenum l) (to_GLenum r)).
End StorageFlags.

(** [enum class IndexedTarget : GLenum] *)
Module IndexedTarget.
Inductive t : Type :=
| atomic_counter | transform_feedback | uniform | shader_storage.

Definition value (e : t) : Z :=
  match e with
  | atomic_counter => 0x92C0
  | transform_feedback => 0x8C8E
  | uniform => 0x8A11
  | shader_storage => 0x90D2
  end.

Definition stands_for (e : t) : enumerant :=
  match e with
  | atomic_counter => GL_ATOMIC_COUNTER_BUFFER
  | transform_feedback => GL_TRANSFORM_FEEDBACK_BUFFER
  | uniform => GL_UNIFORM_BUFFER
  | shader_storage => GL_SHADER_STORAGE_BUFFER
  end.
End IndexedTarget.

(** The value an optional enumerant denotes: none is the empty bit field. *)
Definition GL_bits (c : option enumerant) : Z :=
  match c with
  | Some c => GL_value c
  | None => 0
  end.

(** ** The members of [BufferHandle]

    The header declares, and [buffer.cpp] defines, the members below.
    They act on the state [S] of the OpenGL context (which includes the
    host memory that [read] fills); pointers are addresses. *)
Class OutOfLine (S : Type) : Type := {
  (* void write(GLintptr offset, GLsizeiptr size, const void *data) const *)
  write : BufferHandle -> Z -> Z -> Z -> S -> S;
  (* void read(GLintptr offset, GLsizeiptr size, void *data) const *)
  read : BufferHandle -> Z -> Z -> Z -> S -> S;
  (* auto mapRange(GLintptr offset, GLsizeiptr length, AccessFlags access) const -> void * *)
  mapRange : BufferHandle -> Z -> Z -> AccessFlags.t -> S -> Z * S;
  (* void bindRange(IndexedTarget target, GLuint index, GLintptr offset, GLsizeiptr size) const *)
  bindRange : BufferHandle -> IndexedTarget.t -> Z -> Z -> Z -> S -> S;
  (* static void s_bindRange(IndexedTarget target, GLuint first_binding, GLsizei count,
                             const GLuint *buffers, const GLintptr *offsets,
                             const GLintptr *sizes);
     the three arrays are passed as their contents *)
  s_bindRange : IndexedTarget.t -> Z -> Z -> list Z -> list Z -> list Z -> S -> S;
}.

(** The local variables of [bindRanges]. *)
Record bindRanges_locals : Type := mkLocals {
  buffers : list Z;      (* std::vector<GLuint>   *)
  offsets : list Z;      (* std::vector<GLintptr> *)
  sizes   : list Z;      (* std::vector<GLintptr> *)
  count   : Z;           (* GLsizei               *)
}.

(** {[ while (iter != end) {
         const auto [buffer, range] = *iter++;
         buffers.emplace_back(buffer.getName());
         offsets.emplace_back(range.offset);
         sizes.emplace_back(range.size);
         count++;
       } ]}
    The iterator range [[begin, end)] is the list of the pairs it yields. *)
Fixpoint bindRanges_loop (iter : list (BufferHandle * Range))
    (loc : bindRanges_locals) : bindRanges_locals :=
  match iter with
  | [] => loc
  | (buffer, range) :: iter' =>
      bindRanges_loop iter'
        (mkLocals (buffers loc ++ [getName buffer])
                  (offsets loc ++ [offset range])
                  (sizes loc ++ [size range])
                  (GLsizei_wrap (count loc + 1)))
  end.

Section Inline.
Context {S : Type} {B : OutOfLine S}.

(** [void write(Range range, const void *data) const
      { write(range.offset, range.size, data); }] *)
Definition write_Range (self : BufferHandle) (range : Range) (data : Z) : S -> S :=
  write self (offset range) (size range) data.

(** [void read(Range range, void *data) const
      { read(range.offset, range.size, data); }] *)
Definition read_Range (self : BufferHandle) (range : Range) (data : Z) : S -> S :=
  read self (offset range) (size range) data.

(** [auto mapRange(Range range, AccessFlags access) const -> void *
      { return mapRange(range.offset, range.size, access); }] *)
Definition mapRange_Range (self : BufferHandle) (range : Range)
    (access : AccessFlags.t) : S -> Z * S :=
  mapRange self (offset range) (size range) access.

(** [void bindRange(IndexedTarget target, GLuint index, Range range) const
      { bindRange(target, index, range.offset, range.size); }] *)
Definition bindRange_Range (self : BufferHandle) (target : IndexedTarget.t)
    (index : Z) (range : Range) : S -> S :=
  bindRange self target index (offset range) (size range).

(** [template<typename InputIter>
     static void bindRanges(IndexedTarget target, GLuint first_binding,
                            InputIter begin, InputIter end)] *)
Definition bindRanges (target : IndexedTarget.t) (first_binding : Z)
    (range : list (BufferHandle * Range)) : S -> S :=
  let loc := bindRanges_loop range (mkLocals [] [] [] 0) in
  s_bindRange target first_binding (count loc) (buffers loc) (offsets loc) (sizes loc).

End Inline.

(** ** Counting the calls

    An instance that does nothing but record, in order, which of the
    out-of-line members were invoked and with what. *)
Inductive Invocation : Type :=
| Inv_write (self : BufferHandle) (offset size data : Z)
| Inv_read (self : BufferHandle) (offset size data : Z)
| Inv_mapRange (self : BufferHandle) (offset length : Z) (access : AccessFlags.t)
| Inv_bindRange (self : BufferHandle) (target : IndexedTarget.t) (index offset size : Z)
| Inv_s_bindRange (target : IndexedTarget.t) (first_binding count : Z)
    (buffers offsets sizes : list Z).

Definition Recorder : OutOfLine (list Invocation) :=
  {| write := fun self o s d log => log ++ [Inv_write self o s d];
     read := fun self o s d log => log ++ [Inv_read self o s d];
     mapRange := fun self o l a log => (0, log ++ [Inv_mapRange self o l a]);
     bindRange := fun self t i o s log => log ++ [Inv_bindRange self t i o s];
     s_bindRange := fun t f c bs os ss log => log ++ [Inv_s_bindRange t f c bs os ss] |}.

End Buffer.

(* ===================================================================== *)
(** * vertex_array.hpp                                                    *)
(* ===================================================================== *)

Module VertexArray.
Import GL.
#[local] Open Scope Z_scope.

(** [enum class AttribSize { one = 1, two = 2, three = 3, four = 4 };] *)
Module AttribSize.
Inductive t : Type := one | two | three | four.

Definition value (e : t) : Z :=
  match e with
  | one => 1
  | two => 2
  | three => 3
  | four => 4
  end.
End AttribSize.

(** [enum class AttribType { byte_ = GL_BYTE, ... };] *)
Module AttribType.
Inductive t : Type :=
| byte_ | ubyte_ | short_ | ushort_ | int_ | uint_ | fixed_ | float_
| half_float_ | double_
| int_2_10_10_10_rev | uint_2_10_10_10_rev | uint_10f_11f_11f_rev.

Definition value (e : t) : Z :=
  match e with
  | byte_ => GL_value GL_BYTE
  | ubyte_ => GL_value GL_UNSIGNED_BYTE
  | short_ => GL_value GL_SHORT
  | ushort_ => GL_value GL_UNSIGNED_SHORT
  | int_ => GL_value GL_INT
  | uint_ => GL_value GL_UNSIGNED_INT
  | fixed_ => GL_value GL_FIXED
  | float_ => GL_value GL_FLOAT
  | half_float_ => GL_value GL_HALF_FLOAT
  | double_ => GL_value GL_DOUBLE
  | int_2_10_10_10_rev => GL_value GL_INT_2_10_10_10_REV
  | uint_2_10_10_10_rev => GL_value GL_UNSIGNED_INT_2_10_10_10_REV
  | uint_10f_11f_11f_rev => GL_value GL_UNSIGNED_INT_10F_11F_11F_REV
  end.
End AttribType.

End VertexArray.

(* ===================================================================== *)
(** * guard.hpp: the remaining member, and Guards in use                  *)
(* ===================================================================== *)

Module GuardMore.
Import GuardModel.

Section More.
Context {H : Type} {HT : HandleType H} `{!EqDecision H}.

Notation "'let*' x ':=' m 'in' k" := (bind m (fun x => k))
  (at level 10, x name, m at level 100, k at level 200).

(** [auto operator*() const -> HandleType { return m_handle; }] *)
Definition operator_star (this : nat) : M H H := read_m_handle this.

(** [std::swap(a, b)] on two Guards, as the standard library writes it
    with the move constructor and the move assignment; [tmp] is the
    address of its local variable, destroyed at the end of the scope.
    {[ Guard tmp(std::move(a));  a = std::move(b);  b = std::move(tmp); ]} *)
Definition swap (a b tmp : nat) : M H unit :=
  let* _ := Guard_ctor_move tmp a in
  let* _ := operator_assign a b in
  let* _ := operator_assign b tmp in
  Guard_dtor tmp.

(** The Guards an operation names. *)
Definition op_names (op : Op H) : list nat :=
  match op with
  | OpCtor this _ | OpCtorHandle this _ | OpRelease this
  | OpReset this _ | OpDtor this => [this]
  | OpCtorMove this other | OpAssign this other => [this; other]
  end.

(** The addresses at which a Guard lives after an operation. *)
Definition op_live (op : Op H) (live : gset nat) : gset nat :=
  match op with
  | OpCtor this _ | OpCtorHandle this _ | OpCtorMove this _ => {[this]} ∪ live
  | OpDtor this => live ∖ {[this]}
  | OpAssign _ _ | OpRelease _ | OpReset _ _ => live
  end.

(** The calls of [HandleType::create] and of [HandleType::destroy] that
    the code of an operation contains. *)
Definition op_creates (op : Op H) : nat :=
  match op with
  | OpCtor _ _ => 1
  | _ => 0
  end.

Definition op_destroys (op : Op H) : nat :=
  match op with
  | OpAssign _ _ | OpReset _ _ | OpDtor _ => 1
  | _ => 0
  end.

(** The calls of each kind in a log. *)
Fixpoint create_calls (cs : list (Call CreateArgs H)) : nat :=
  match cs with
  | [] => 0
  | CallCreate _ _ :: rest => S (create_calls rest)
  | CallDestroy _ :: rest => create_calls rest
  end.

Fixpoint destroy_calls (cs : list (Call CreateArgs H)) : nat :=
  match cs with
  | [] => 0
  | CallCreate _ _ :: rest => destroy_calls rest
  | CallDestroy _ :: rest => S (destroy_calls rest)
  end.

(** [HandleType::create] returned [h] at some point of the log. *)
Definition created (h : H) (cs : list (Call CreateArgs H)) : Prop :=
  exists args, In (CallCreate args h) cs.

Definition is_release (op : Op H) : bool :=
  match op with
  | OpRelease _ => true
  | _ => false
  end.

(** Every non-null handle that [create] returned is held by a live Guard
    or has been destroyed once. *)
Definition accounted (w : World H) : Prop :=
  forall h, h <> HandleType_default -> created h (calls w) ->
    (exists p, owns w p h) \/ destroy_count h (calls w) = 1.

End More.

Section MoreExamples.
#[local] Existing Instance NameHandle.

(** {[ Guard a;  Guard b(std::move(a));  Guard c;  c = std::move(b);
       ~c; ~b; ~a; ]} *)
Definition managed_ops : list (Op nat) :=
  [OpCtor 0 tt; OpCtorMove 1 0; OpCtor 2 tt; OpAssign 2 1;
   OpDtor 2; OpDtor 1; OpDtor 0].

End MoreExamples.

End GuardMore.

(* ===================================================================== *)
(** * buffer.hpp: [bindBases]                                             *)
(* ===================================================================== *)

Module BufferMore.
Import GL Buffer.
#[local] Open Scope Z_scope.

(** [static void s_bindBases(IndexedTarget target, GLuint first_binding,
                             GLsizei count, const GLuint *buffers);]
    declared in the header, defined in [buffer.cpp]; the array is passed
    as its contents. *)
Class OutOfLineBases (S : Type) : Type := {
  s_bindBases : IndexedTarget.t -> Z -> Z -> list Z -> S -> S;
}.

(** The local variables of [bindBases]. *)
Record bindBases_locals : Type := mkBasesLocals {
  bases_buffers : list Z;      (* std::vector<GLuint> *)
  bases_count   : Z;           (* GLsizei             *)
}.

(** {[ while (iter != end_buffer) {
         buffers.emplace_back(iter++->getName());
         count++;
       } ]} *)
Fixpoint bindBases_loop (iter : list BufferHandle)
    (loc : bindBases_locals) : bindBases_locals :=
  match iter with
  | [] => loc
  | buffer :: iter' =>
      bindBases_loop iter'
        (mkBasesLocals (bases_buffers loc ++ [getName buffer])
                       (GLsizei_wrap (bases_count loc + 1)))
  end.

(** [template<typename InputIter>
     static void bindBases(IndexedTarget target, GLuint first_binding,
                           InputIter begin_buffer, InputIter end_buffer)] *)
Definition bindBases {S : Type} {B : OutOfLineBases S}
    (target : IndexedTarget.t) (first_binding : Z)
    (range : list BufferHandle) : S -> S :=
  let loc := bindBases_loop range (mkBasesLocals [] 0) in
  s_bindBases target first_binding (bases_count loc) (bases_buffers loc).

(** One invocation of [s_bindBases], as recorded. *)
Record BasesInvocation : Type := mkBasesInvocation {
  inv_target : IndexedTarget.t;
  inv_first_binding : Z;
  inv_count : Z;
  inv_buffers : list Z;
}.

Definition BasesRecorder : OutOfLineBases (list BasesInvocation) :=
  {| s_bindBases := fun t f c bs log => log ++ [mkBasesInvocation t f c bs] |}.

End BufferMore.

(* ===================================================================== *)
(** * Part II: their properties                                           *)
(* ===================================================================== *)

(** * The guard *)

Module GuardProofs.
Import GuardModel.

(** ** What the members do to the world *)

Section GuardMembers.
Context {H : Type} {HT : HandleType H}.
Implicit Types (w : World H) (this other : nat) (g : Guard H) (h : H).

Lemma Guard_ctor_eq w this args :
  objects w !! this = None ->
  Guard_ctor this args w =
    Some (tt, mkWorld (<[this := mkGuard (create_returns args (calls w))]> (objects w))
                      (calls w ++ [CallCreate args (create_returns args (calls w))])).
Proof. intros E. member_eval. reflexivity. Qed.

Lemma Guard_ctor_handle_eq w this h :
  objects w !! this = None ->
  Guard_ctor_handle this h w =
    Some (tt, mkWorld (<[this := mkGuard h]> (objects w)) (calls w)).
Proof. intros E. member_eval. reflexivity. Qed.

Lemma Guard_dtor_eq w this g :
  objects w !! this = Some g ->
  Guard_dtor this w =
    Some (tt, mkWorld (delete this (objects w)) (calls w ++ [CallDestroy (m_handle g)])).
Proof. intros E. member_eval. reflexivity. Qed.

Lemma release_eq w this g :
  objects w !! this = Some g ->
  release this w =
    Some (m_handle g, mkWorld (<[this := mkGuard HandleType_default]> (objects w)) (calls w)).
Proof. intros E. member_eval. reflexivity. Qed.

Lemma reset_eq w this g h :
  objects w !! this = Some g ->
  reset this h w =
    Some (tt, mkWorld (<[this := mkGuard h]> (objects w))
                      (calls w ++ [CallDestroy (m_handle g)])).
Proof. intros E. member_eval. reflexivity. Qed.

Lemma Guard_ctor_move_eq w this other g :
  objects w !! this = None ->
  objects w !! other = Some g ->
  Guard_ctor_move this other w =
    Some (tt, mkWorld (<[this := mkGuard (m_handle g)]>
                         (<[other := mkGuard HandleType_default]> (objects w)))
                      (calls w)).
Proof.
  intros E1 E2. assert (this ≠ other) by congruence.
  member_eval. reflexivity.
Qed.

Lemma operator_assign_eq w this other gd gs :
  this ≠ other ->
  objects w !! this = Some gd ->
  objects w !! other = Some gs ->
  operator_assign this other w =
    Some (this, mkWorld (<[this := mkGuard (m_handle gs)]>
                           (<[other := mkGuard HandleType_default]> (objects w)))
                        (calls w ++ [CallDestroy (m_handle gd)])).
Proof. intros Hne E1 E2. member_eval. reflexivity. Qed.

Lemma operator_assign_self_eq w this g :
  objects w !! this = Some g ->
  operator_assign this this w =
    Some (this, mkWorld (objects w) (calls w ++ [CallDestroy HandleType_default])).
Proof.
  intros E. member_eval. rewrite insert_insert_eq.
  destruct g as [h]; simpl. rewrite (insert_id _ _ _ E). reflexivity.
Qed.

Lemma exec_inv op w w' : exec op w = Some (tt, w') -> exec_post op w w'.
Proof.
  destruct op as [this args|this h|this other|this other|this|this h|this];
    simpl; member_unfold; intros Hx; member_inv Hx;
    injection Hx as <-; eauto 10.
  - (* move construction: [this] is not [other] *)
    eexists. split; [|eauto].
    destruct (decide (this = other)) as [->|Hne].
    + rewrite lookup_insert_eq in *. discriminate.
    + rewrite lookup_insert_ne in * by congruence. assumption.
  - (* move assignment: [this] may be [other] *)
    destruct (decide (this = other)) as [->|Hne].
    + eauto 10.
    + match goal with E : <[_:=_]> _ !! _ = Some ?g1 |- _ =>
        assert (E2 := E); rewrite lookup_insert_ne in E2 by congruence
      end.
      eauto 10.
Qed.

End GuardMembers.

(** ** Ownership *)

Section GuardOwnership.
Context {H : Type} {HT : HandleType H} `{!EqDecision H}.
Implicit Types (w : World H) (o : gmap nat (Guard H))
  (cs : list (Call CreateArgs H)) (h : H).

Abbreviation null := HandleType_default.

Lemma destroy_count_app h cs1 cs2 :
  destroy_count h (cs1 ++ cs2) = destroy_count h cs1 + destroy_count h cs2.
Proof.
  induction cs1 as [|[a r|h'] cs1 IH]; simpl; [reflexivity|exact IH|].
  rewrite IH. lia.
Qed.

Lemma destroy_count_create h cs a r :
  destroy_count h (cs ++ [CallCreate a r]) = destroy_count h cs.
Proof. rewrite destroy_count_app. simpl. lia. Qed.

Lemma destroy_count_destroy_eq h cs :
  destroy_count h (cs ++ [CallDestroy h]) = S (destroy_count h cs).
Proof. rewrite destroy_count_app. simpl. rewrite decide_True by reflexivity. lia. Qed.

Lemma destroy_count_destroy_ne h h' cs :
  h' <> h -> destroy_count h (cs ++ [CallDestroy h']) = destroy_count h cs.
Proof. intros Hne. rewrite destroy_count_app. simpl. rewrite decide_False by exact Hne. lia. Qed.

(** *** The invariant under the elementary changes of the world *)

Lemma invariant_initial : ownership_invariant World_initial.
Proof.
  split; [|split].
  - intros p q h _ Hp. unfold owns in Hp. simpl in Hp.
    rewrite lookup_empty in Hp. discriminate.
  - intros h _. simpl. lia.
  - intros p h _ Hp. reflexivity.
Qed.

Lemma invariant_create o cs a r :
  ownership_invariant (mkWorld o cs) ->
  ownership_invariant (mkWorld o (cs ++ [CallCreate a r])).
Proof.
  intros (J1 & J2 & J3). split; [|split].
  - exact J1.
  - intros h Hh. simpl. rewrite destroy_count_create. exact (J2 h Hh).
  - intros p h Hh Hp. simpl. rewrite destroy_count_create. exact (J3 p h Hh Hp).
Qed.

Lemma invariant_null o cs p :
  ownership_invariant (mkWorld o cs) ->
  ownership_invariant (mkWorld (<[p := mkGuard null]> o) cs).
Proof.
  intros (J1 & J2 & J3).
  assert (Hold : forall q h, h <> null ->
            owns (mkWorld (<[p := mkGuard null]> o) cs) q h -> owns (mkWorld o cs) q h).
  { unfold owns; simpl. intros q h Hh Hq.
    destruct (decide (p = q)) as [->|Hne].
    - rewrite lookup_insert_eq in Hq. congruence.
    - rewrite lookup_insert_ne in Hq by exact Hne. exact Hq. }
  split; [|split].
  - intros q1 q2 h Hh H1 H2. eapply J1; eauto.
  - exact J2.
  - intros q h Hh Hq. eapply J3; eauto.
Qed.

Lemma invariant_delete o cs p :
  ownership_invariant (mkWorld o cs) ->
  ownership_invariant (mkWorld (delete p o) cs).
Proof.
  intros (J1 & J2 & J3).
  assert (Hold : forall q h,
            owns (mkWorld (delete p o) cs) q h -> owns (mkWorld o cs) q h).
  { unfold owns; simpl. intros q h Hq.
    apply lookup_delete_Some in Hq. tauto. }
  split; [|split].
  - intros q1 q2 h Hh H1 H2. eapply J1; eauto.
  - exact J2.
  - intros q h Hh Hq. eapply J3; eauto.
Qed.

Lemma invariant_store o cs p h :
  ownership_invariant (mkWorld o cs) ->
  fresh (mkWorld o cs) h ->
  ownership_invariant (mkWorld (<[p := mkGuard h]> o) cs).
Proof.
  intros J [->|[Hun Hcnt]]; [apply invariant_null; exact J|].
  destruct J as (J1 & J2 & J3). unfold unowned in Hun. simpl in Hun, Hcnt.
  assert (Hcase : forall q h', owns (mkWorld (<[p := mkGuard h]> o) cs) q h' ->
            (q = p /\ h' = h) \/ (q <> p /\ h' <> h /\ owns (mkWorld o cs) q h')).
  { unfold owns; simpl. intros q h' Hq.
    destruct (decide (p = q)) as [->|Hne].
    - rewrite lookup_insert_eq in Hq. left. split; congruence.
    - rewrite lookup_insert_ne in Hq by exact Hne. right.
      repeat split; [congruence| |exact Hq].
      intros ->. exact (Hun q _ Hq eq_refl). }
  split; [|split].
  - intros q1 q2 h' Hh H1 H2.
    destruct (Hcase _ _ H1) as [[-> E1]|(N1 & M1 & O1)],
             (Hcase _ _ H2) as [[-> E2]|(N2 & M2 & O2)];
      try congruence.
    eapply J1; eauto.
  - exact J2.
  - intros q h' Hh Hq. simpl.
    destruct (Hcase _ _ Hq) as [[-> ->]|(N1 & M1 & O1)]; [exact Hcnt|].
    eapply J3; eauto.
Qed.

Lemma invariant_destroy o cs h :
  ownership_invariant (mkWorld o cs) ->
  fresh (mkWorld o cs) h ->
  ownership_invariant (mkWorld o (cs ++ [CallDestroy h])).
Proof.
  intros (J1 & J2 & J3) Hf. split; [|split].
  - exact J1.
  - intros h' Hh'. simpl.
    destruct (decide (h = h')) as [->|Hne].
    + rewrite destroy_count_destroy_eq.
      destruct Hf as [->|[_ Hcnt]]; [congruence|]. simpl in Hcnt. lia.
    + rewrite destroy_count_destroy_ne by exact Hne. exact (J2 h' Hh').
  - intros q h' Hh' Hq. simpl.
    rewrite destroy_count_destroy_ne; [exact (J3 q h' Hh' Hq)|].
    intros ->. destruct Hf as [->|[Hun _]]; [congruence|].
    exact (Hun q _ Hq eq_refl).
Qed.

(** *** Freshness under the same changes *)

Lemma fresh_null_guard o cs p h :
  fresh (mkWorld o cs) h -> fresh (mkWorld (<[p := mkGuard null]> o) cs) h.
Proof.
  intros Hf. destruct (decide (h = null)) as [->|Hh]; [left; reflexivity|].
  destruct Hf as [->|[Hun Hcnt]]; [congruence|]. right. split; [|exact Hcnt].
  intros q g Hq. simpl in Hq.
  destruct (decide (p = q)) as [->|Hne].
  - rewrite lookup_insert_eq in Hq. injection Hq as <-. simpl. congruence.
  - rewrite lookup_insert_ne in Hq by exact Hne. exact (Hun q g Hq).
Qed.

Lemma fresh_after_create o cs a r h :
  fresh (mkWorld o cs) h -> fresh (mkWorld o (cs ++ [CallCreate a r])) h.
Proof.
  intros [->|[Hun Hcnt]]; [left; reflexivity|right].
  split; [exact Hun|]. simpl. rewrite destroy_count_create. exact Hcnt.
Qed.

Lemma fresh_after_destroy o cs h h' :
  h' <> h -> fresh (mkWorld o cs) h -> fresh (mkWorld o (cs ++ [CallDestroy h'])) h.
Proof.
  intros Hne [->|[Hun Hcnt]]; [left; reflexivity|right].
  split; [exact Hun|]. simpl. rewrite destroy_count_destroy_ne by exact Hne. exact Hcnt.
Qed.

(** The handle a Guard held is fresh once that Guard no longer holds it. *)
Lemma held_fresh_after_null o cs p g :
  ownership_invariant (mkWorld o cs) ->
  o !! p = Some g ->
  fresh (mkWorld (<[p := mkGuard null]> o) cs) (m_handle g).
Proof.
  intros (J1 & _ & J3) Hp. destruct g as [h]. simpl.
  destruct (decide (h = null)) as [->|Hh]; [left; reflexivity|right].
  split; [|exact (J3 p h Hh Hp)].
  intros q [h'] Hq. simpl in *. intros ->.
  destruct (decide (p = q)) as [->|Hne].
  - rewrite lookup_insert_eq in Hq. congruence.
  - rewrite lookup_insert_ne in Hq by exact Hne. exact (Hne (J1 p q h Hh Hp Hq)).
Qed.

Lemma held_fresh_after_delete o cs p g :
  ownership_invariant (mkWorld o cs) ->
  o !! p = Some g ->
  fresh (mkWorld (delete p o) cs) (m_handle g).
Proof.
  intros (J1 & _ & J3) Hp. destruct g as [h]. simpl.
  destruct (decide (h = null)) as [->|Hh]; [left; reflexivity|right].
  split; [|exact (J3 p h Hh Hp)].
  intros q [h'] Hq. simpl in *. intros ->.
  apply lookup_delete_Some in Hq. destruct Hq as [Hne Hq].
  exact (Hne (J1 p q h Hh Hp Hq)).
Qed.

(** *** The invariant under the members *)

Lemma reset_invariant o cs p g h :
  ownership_invariant (mkWorld o cs) ->
  o !! p = Some g ->
  fresh (mkWorld o cs) h ->
  ownership_invariant (mkWorld (<[p := mkGuard h]> o) (cs ++ [CallDestroy (m_handle g)])).
Proof.
  intros J Hp Hf.
  rewrite <- (insert_insert_eq o p (mkGuard h) (mkGuard null)).
  apply invariant_store.
  - apply invariant_destroy; [apply invariant_null; exact J|].
    apply held_fresh_after_null; assumption.
  - destruct (decide (h = null)) as [->|Hh]; [left; reflexivity|].
    apply fresh_after_destroy; [|apply fresh_null_guard; exact Hf].
    destruct Hf as [->|[Hun _]]; [congruence|].
    intros E. exact (Hun p g Hp E).
Qed.

Lemma exec_invariant w op w' :
  ownership_invariant w ->
  admissible w op ->
  exec op w = Some (tt, w') ->
  ownership_invariant w'.
Proof.
  intros J Hadm Hx. apply exec_inv in Hx. destruct w as [o cs].
  destruct op as [this args|this h|this other|this other|this|this h|this];
    simpl in *.
  - destruct Hx as [_ ->].
    apply invariant_store; [apply invariant_create; exact J|].
    apply fresh_after_create. exact Hadm.
  - destruct Hx as [_ ->]. apply invariant_store; assumption.
  - destruct Hx as (g & _ & Ho & ->).
    apply invariant_store; [apply invariant_null; exact J|].
    apply held_fresh_after_null; assumption.
  - destruct Hx as (gd & gs & g1 & _ & Ho & H1 & ->).
    apply reset_invariant; [apply invariant_null; exact J|exact H1|].
    apply held_fresh_after_null; assumption.
  - destruct Hx as (g & _ & ->). apply invariant_null. exact J.
  - destruct Hx as (g & Hp & ->). apply reset_invariant; assumption.
  - destruct Hx as (g & Hp & ->).
    apply invariant_destroy; [apply invariant_delete; exact J|].
    apply held_fresh_after_delete; assumption.
Qed.

Lemma disciplined_invariant w ops w' :
  disciplined w ops w' -> ownership_invariant w -> ownership_invariant w'.
Proof.
  induction 1 as [w|w op w1 ops w2 Hadm Hx _ IH]; intros J; [exact J|].
  apply IH. exact (exec_invariant w op w1 J Hadm Hx).
Qed.

Lemma disciplined_run w ops w' :
  disciplined w ops w' -> run ops w = Some (tt, w').
Proof.
  induction 1 as [w|w op w1 ops w2 _ Hx _ IH]; [reflexivity|].
  simpl. unfold bind. rewrite Hx. exact IH.
Qed.

Lemma run_disciplined_sound ops w w' :
  run_disciplined ops w = Some w' -> disciplined w ops w'.
Proof.
  revert w. induction ops as [|op ops IH]; intros w; simpl.
  - intros [= <-]. constructor.
  - destruct (decide (admissible w op)) as [Hadm|]; [|discriminate].
    destruct (exec op w) as [[[] w1]|] eqn:Hx; [|discriminate].
    intros Hr. econstructor; [exact Hadm|exact Hx|exact (IH _ Hr)].
Qed.

Lemma disciplined_take w ops w' n :
  disciplined w ops w' -> exists w1, disciplined w (take n ops) w1.
Proof.
  intros Hd. revert n.
  induction Hd as [w|w op w1 ops w2 Hadm Hx _ IH]; intros n.
  - exists w. rewrite take_nil. constructor.
  - destruct n as [|n]; simpl.
    + exists w. constructor.
    + destruct (IH n) as [w3 H3]. exists w3. econstructor; eassumption.
Qed.

End GuardOwnership.

(** ** The claims about [Guard] *)

Section GuardClaims.
Context {H : Type} {HT : HandleType H} `{!EqDecision H}.
Implicit Types (w : World H) (this other : nat) (g : Guard H) (h : H).

Abbreviation null := HandleType_default.

(** C1 (amended).  Take any sequence of constructions, move
    constructions, move assignments, releases, resets and destructions
    in which every handle that enters a Guard from outside (the result
    of [HandleType::create] in the forwarding constructor, the argument
    of the constructor for an existing object, the argument of [reset])
    is null or is at that moment held by no live Guard and not yet
    destroyed.  Then after every prefix of the sequence each non-null
    handle is held by at most one live Guard, and
    [HandleType::destroy] has been invoked on each non-null handle at
    most once. *)
Theorem Guard_exclusive_ownership (ops : list (Op H)) (w_end : World H) :
  disciplined World_initial ops w_end ->
  forall n w, run (take n ops) World_initial = Some (tt, w) ->
              exclusive_ownership w.
Proof.
  intros Hd n w Hrun.
  destruct (disciplined_take _ _ _ n Hd) as [w1 H1].
  rewrite (disciplined_run _ _ _ H1) in Hrun. injection Hrun as <-.
  destruct (disciplined_invariant _ _ _ H1 invariant_initial) as (J1 & J2 & _).
  split; assumption.
Qed.

(** C2.  The forwarding constructor stores exactly the handle that
    [HandleType::create(args...)] returned; the destructor invokes
    [HandleType::destroy] on the handle stored at that time and ends
    the object; and a Guard whose handle was released beforehand
    destroys the null handle, not the one it was constructed with. *)
Theorem Guard_ctor_dtor_lifetime w this (args : CreateArgs) w1 g :
  objects w !! this = None ->
  objects w1 !! this = Some g ->
  Guard_ctor this args w =
    Some (tt, mkWorld (<[this := mkGuard (create_returns args (calls w))]> (objects w))
                      (calls w ++ [CallCreate args (create_returns args (calls w))]))
  /\ Guard_dtor this w1 =
    Some (tt, mkWorld (delete this (objects w1))
                      (calls w1 ++ [CallDestroy (m_handle g)]))
  /\ bind (release this) (fun h => bind (Guard_dtor this) (fun _ => ret h)) w1 =
    Some (m_handle g, mkWorld (delete this (objects w1))
                              (calls w1 ++ [CallDestroy null])).
Proof.
  intros E E1. split; [|split].
  - apply Guard_ctor_eq. exact E.
  - apply Guard_dtor_eq. exact E1.
  - unfold bind at 1. rewrite (release_eq _ _ _ E1).
    unfold bind at 1.
    erewrite Guard_dtor_eq by (simpl; apply lookup_insert_eq).
    simpl. rewrite delete_insert_eq. reflexivity.
Qed.

(** C3 (amended).  For two distinct Guards, move construction and move
    assignment leave the destination holding the handle the source held
    and the source holding the null handle.  Move construction invokes
    no [destroy]; move assignment invokes [destroy] exactly once, on the
    handle the destination held before.  Hence the transferred handle
    is not destroyed by the move whenever it differs from the handle
    the destination held. *)
Theorem Guard_move_transfers w this other gs :
  this <> other ->
  objects w !! other = Some gs ->
  (objects w !! this = None ->
     Guard_ctor_move this other w =
       Some (tt, mkWorld (<[this := mkGuard (m_handle gs)]>
                            (<[other := mkGuard null]> (objects w)))
                         (calls w)))
  /\ (forall gd, objects w !! this = Some gd ->
       operator_assign this other w =
         Some (this, mkWorld (<[this := mkGuard (m_handle gs)]>
                                (<[other := mkGuard null]> (objects w)))
                             (calls w ++ [CallDestroy (m_handle gd)])) /\
       (m_handle gd <> m_handle gs ->
          destroy_count (m_handle gs) (calls w ++ [CallDestroy (m_handle gd)]) =
          destroy_count (m_handle gs) (calls w))).
Proof.
  intros Hne Eo. split.
  - intros Et. apply Guard_ctor_move_eq; assumption.
  - intros gd Et. split.
    + apply operator_assign_eq; assumption.
    + intros Hd. apply destroy_count_destroy_ne. exact Hd.
Qed.

(** C4.  A Guard in the null state makes exactly one [destroy] call,
    with the null handle, when it is destroyed, when it is reset, and
    when another Guard (or itself) is move-assigned into it.  [release]
    puts a Guard in that state without any call. *)
Theorem Guard_null_state_destroys_null w this g :
  objects w !! this = Some g ->
  m_handle g = null ->
  Guard_dtor this w =
    Some (tt, mkWorld (delete this (objects w)) (calls w ++ [CallDestroy null]))
  /\ (forall new_handle,
       reset this new_handle w =
         Some (tt, mkWorld (<[this := mkGuard new_handle]> (objects w))
                           (calls w ++ [CallDestroy null])))
  /\ (forall other gs, objects w !! other = Some gs ->
       operator_assign this other w =
         Some (this, mkWorld (<[this := mkGuard (m_handle gs)]>
                                (<[other := mkGuard null]> (objects w)))
                             (calls w ++ [CallDestroy null])))
  /\ (forall w0 g0, objects w0 !! this = Some g0 ->
       exists w1, release this w0 = Some (m_handle g0, w1) /\
                  objects w1 !! this = Some (mkGuard null) /\
                  calls w1 = calls w0).
Proof.
  intros E Hnull. split; [|split; [|split]].
  - rewrite (Guard_dtor_eq _ _ _ E), Hnull. reflexivity.
  - intros new_handle. rewrite (reset_eq _ _ _ new_handle E), Hnull. reflexivity.
  - intros other gs Eo. destruct (decide (this = other)) as [<-|Hne].
    + rewrite (operator_assign_self_eq _ _ _ E).
      rewrite insert_insert_eq.
      assert (gs = g) as -> by congruence.
      destruct g as [h]; simpl. rewrite (insert_id _ _ _ E). reflexivity.
    + rewrite (operator_assign_eq _ _ _ _ _ Hne E Eo), Hnull. reflexivity.
  - intros w0 g0 E0. rewrite (release_eq _ _ _ E0). eexists.
    split; [reflexivity|]. simpl. split; [apply lookup_insert_eq|reflexivity].
Qed.

(** C10.  Self-move-assignment returns the same Guard, leaves every
    Guard (this one included) holding what it held, and makes one
    [destroy] call, on the null handle; so the number of [destroy]
    calls on the handle the Guard manages does not change when that
    handle is not null. *)
Theorem Guard_self_move_assign w this g :
  objects w !! this = Some g ->
  operator_assign this this w =
    Some (this, mkWorld (objects w) (calls w ++ [CallDestroy null]))
  /\ (m_handle g <> null ->
      destroy_count (m_handle g) (calls w ++ [CallDestroy null]) =
      destroy_count (m_handle g) (calls w)).
Proof.
  intros E. split.
  - apply (operator_assign_self_eq _ _ _ E).
  - intros Hh. apply destroy_count_destroy_ne. congruence.
Qed.

End GuardClaims.

(** ** The claims on [NameHandle] *)

Section GuardExamples.
#[local] Existing Instance NameHandle.

(** C1, witness: the run [example_ops] is admissible at every step. *)
Lemma Guard_exclusive_ownership_witness :
  exists w, run example_ops World_initial = Some (tt, w) /\ exclusive_ownership w.
Proof.
  eexists. split; [vm_compute; reflexivity|].
  refine (Guard_exclusive_ownership example_ops _
            (run_disciplined_sound example_ops World_initial _ _)
            (length example_ops) _ _);
    vm_compute; reflexivity.
Defined.

(** C1, as stated, fails: two Guards constructed for the same existing
    object both hold it, and both destructors destroy it. *)
Lemma Guard_shared_handle_counterexample :
  exists w2 w4,
    run (take 2 shared_ops) World_initial = Some (tt, w2) /\
    run shared_ops World_initial = Some (tt, w4) /\
    ~ single_owner w2 /\
    ~ destroyed_at_most_once w4.
Proof.
  eexists. eexists.
  split; [vm_compute; reflexivity|].
  split; [vm_compute; reflexivity|].
  split.
  - intros Hs. specialize (Hs 0 1 7).
    assert (E : 0 = 1) by (apply Hs; [discriminate|reflexivity|reflexivity]).
    discriminate E.
  - intros Hd. specialize (Hd 7). simpl in Hd.
    assert (2 <= 1) by (apply Hd; discriminate). lia.
Qed.

(** C2, witness. *)
Lemma Guard_ctor_dtor_lifetime_witness :
  Guard_ctor 0 tt World_initial =
    Some (tt, mkWorld (<[0 := mkGuard 1]> ∅) [CallCreate tt 1])
  /\ Guard_dtor 0 two_guards =
    Some (tt, mkWorld (delete 0 (objects two_guards)) [CallDestroy 5]).
Proof.
  pose proof (Guard_ctor_dtor_lifetime World_initial 0 tt two_guards (mkGuard 5)
                eq_refl eq_refl) as (Hc & Hd & _).
  split; [exact Hc|exact Hd].
Defined.

(** C3, witness: [Guard c(std::move(b))] and [a = std::move(b)] on two
    Guards [a], [b] holding 5 and 6. *)
Lemma Guard_move_transfers_witness :
  Guard_ctor_move 2 1 two_guards =
    Some (tt, mkWorld (<[2 := mkGuard 6]> (<[1 := mkGuard 0]> (objects two_guards))) [])
  /\ operator_assign 0 1 two_guards =
    Some (0, mkWorld (<[0 := mkGuard 6]> (<[1 := mkGuard 0]> (objects two_guards)))
                     [CallDestroy 5]).
Proof.
  assert (H21 : 2 <> 1) by discriminate.
  assert (H01 : 0 <> 1) by discriminate.
  split.
  - exact (proj1 (Guard_move_transfers two_guards 2 1 (mkGuard 6) H21 eq_refl) eq_refl).
  - exact (proj1 (proj2 (Guard_move_transfers two_guards 0 1 (mkGuard 6) H01 eq_refl)
                    (mkGuard 5) eq_refl)).
Defined.

(** C3, as stated, fails: when both Guards hold the same handle, the
    handle that ends up in the destination is the one the move destroyed. *)
Lemma Guard_move_same_handle_counterexample :
  exists w2 w3,
    run (take 2 shared_ops) World_initial = Some (tt, w2) /\
    owns w2 0 7 /\ owns w2 1 7 /\
    operator_assign 0 1 w2 = Some (0, w3) /\
    owns w3 0 7 /\
    calls w3 = calls w2 ++ [CallDestroy 7].
Proof.
  eexists. eexists.
  split; [vm_compute; reflexivity|].
  split; [reflexivity|]. split; [reflexivity|].
  split; [vm_compute; reflexivity|].
  split; reflexivity.
Qed.

(** C4, witness: the Guard at address 0 of [null_guard]. *)
Lemma Guard_null_state_destroys_null_witness :
  Guard_dtor 0 null_guard =
    Some (tt, mkWorld (delete 0 (objects null_guard)) [CallDestroy 0])
  /\ operator_assign 0 1 null_guard =
    Some (0, mkWorld (<[0 := mkGuard 6]> (<[1 := mkGuard 0]> (objects null_guard)))
                     [CallDestroy 0]).
Proof.
  pose proof (Guard_null_state_destroys_null null_guard 0 (mkGuard 0) eq_refl eq_refl)
    as (Hd & _ & Ha & _).
  split; [exact Hd|exact (Ha 1 (mkGuard 6) eq_refl)].
Defined.

(** C10, witness: [b = std::move(b)] on the Guard holding 6. *)
Lemma Guard_self_move_assign_witness :
  operator_assign 1 1 two_guards =
    Some (1, mkWorld (objects two_guards) [CallDestroy 0]).
Proof.
  exact (proj1 (Guard_self_move_assign two_guards 1 (mkGuard 6) eq_refl)).
Defined.

End GuardExamples.

End GuardProofs.

(** * The wrappers *)

Module WrapperClaims.
Import GL Buffer VertexArray.
#[local] Open Scope Z_scope.

Lemma GLsizei_wrap_id z :
  (- 2 ^ 31 <= z <= GLsizei_max)%Z -> GLsizei_wrap z = z.
Proof.
  unfold GLsizei_max, GLsizei_wrap. intros Hz.
  rewrite Z.mod_small by lia. lia.
Qed.

Lemma GLsizei_wrap_range z :
  (- 2 ^ 31 <= GLsizei_wrap z <= GLsizei_max)%Z.
Proof.
  unfold GLsizei_max, GLsizei_wrap.
  pose proof (Z.mod_pos_bound (z + 2 ^ 31) (2 ^ 32) ltac:(lia)). lia.
Qed.

Lemma GLsizei_wrap_succ z n :
  GLsizei_wrap (GLsizei_wrap z + n) = GLsizei_wrap (z + n).
Proof.
  unfold GLsizei_wrap. f_equal.
  replace ((z + 2 ^ 31) mod 2 ^ 32 - 2 ^ 31 + n + 2 ^ 31)%Z
    with ((z + 2 ^ 31) mod 2 ^ 32 + n)%Z by lia.
  rewrite Zplus_mod_idemp_l. f_equal. lia.
Qed.

(** What the loop of [bindRanges] leaves in its variables. *)
Lemma bindRanges_loop_eq (iter : list (BufferHandle * Range)) (loc : bindRanges_locals) :
  - 2 ^ 31 <= count loc <= GLsizei_max ->
  bindRanges_loop iter loc =
    mkLocals (buffers loc ++ map (fun p => getName (fst p)) iter)
             (offsets loc ++ map (fun p => offset (snd p)) iter)
             (sizes loc ++ map (fun p => size (snd p)) iter)
             (GLsizei_wrap (count loc + Z.of_nat (length iter))).
Proof.
  revert loc. induction iter as [|[buffer range] iter IH]; intros loc Hc.
  - simpl. rewrite !app_nil_r, Z.add_0_r, (GLsizei_wrap_id _ Hc).
    destruct loc; reflexivity.
  - cbn [bindRanges_loop]. rewrite IH by apply GLsizei_wrap_range.
    cbn [buffers offsets sizes count map fst snd length].
    rewrite <- !app_assoc. cbn [app].
    rewrite GLsizei_wrap_succ. do 2 f_equal. lia.
Qed.


(** C5.  The underlying value of every enumerator of [BufferHandle] is
    the value of the OpenGL enumerant it stands for ([none] being the
    empty bit field); in particular [Parameter::Size] is 0x8764
    ([GL_BUFFER_SIZE]), [AccessMode::read_only] is 0x88B8
    ([GL_READ_ONLY]) and [StorageFlags::map_read] is 0x0001
    ([GL_MAP_READ_BIT]).  [AttribType::float_] is [GL_FLOAT], and
    [AttribSize::one .. four] are 1 .. 4.  Every one of these values is a
    [GLenum] as it stands, so the cast that passes it to OpenGL changes
    nothing. *)
Theorem enumerators_equal_GL_constants :
  (forall e, BufferParameter.value e = GL_value (BufferParameter.stands_for e))
  /\ (forall e, AccessMode.value e = GL_value (AccessMode.stands_for e))
  /\ (forall e, AccessFlags.value e = GL_bits (AccessFlags.stands_for e))
  /\ (forall e, Usage.value e = GL_value (Usage.stands_for e))
  /\ (forall e, StorageFlags.value e = GL_bits (StorageFlags.stands_for e))
  /\ (forall e, IndexedTarget.value e = GL_value (IndexedTarget.stands_for e))
  /\ (BufferParameter.value BufferParameter.Size = 0x8764
      /\ GL_value GL_BUFFER_SIZE = 0x8764)
  /\ (AccessMode.value AccessMode.read_only = 0x88B8
      /\ GL_value GL_READ_ONLY = 0x88B8)
  /\ (StorageFlags.value StorageFlags.map_read = 0x0001
      /\ GL_value GL_MAP_READ_BIT = 0x0001)
  /\ AttribType.value AttribType.float_ = GL_value GL_FLOAT
  /\ map AttribSize.value
       [AttribSize.one; AttribSize.two; AttribSize.three; AttribSize.four]
     = [1; 2; 3; 4]
  /\ (forall e, GLenum_cast (BufferParameter.value e) = BufferParameter.value e)
  /\ (forall e, GLenum_cast (AccessMode.value e) = AccessMode.value e)
  /\ (forall e, GLenum_cast (AccessFlags.value e) = AccessFlags.value e)
  /\ (forall e, GLenum_cast (Usage.value e) = Usage.value e)
  /\ (forall e, GLenum_cast (StorageFlags.value e) = StorageFlags.value e)
  /\ (forall e, GLenum_cast (IndexedTarget.value e) = IndexedTarget.value e)
  /\ (forall e, GLenum_cast (AttribType.value e) = AttribType.value e).
Proof.
  repeat split; try (intros e; destruct e); reflexivity.
Qed.

(** C6.  On [AccessFlags] and on [StorageFlags], [operator|] and
    [operator&] are the bitwise OR and AND of the underlying values; both
    are commutative, [none] is an identity of [operator|] and a zero of
    [operator&]. *)
Theorem flags_operators_bitwise :
  (forall l r : AccessFlags.t,
     AccessFlags.to_GLenum (AccessFlags.operator_or l r)
       = Z.lor (AccessFlags.to_GLenum l) (AccessFlags.to_GLenum r)
     /\ AccessFlags.to_GLenum (AccessFlags.operator_and l r)
       = Z.land (AccessFlags.to_GLenum l) (AccessFlags.to_GLenum r)
     /\ AccessFlags.operator_or l r = AccessFlags.operator_or r l
     /\ AccessFlags.operator_and l r = AccessFlags.operator_and r l
     /\ AccessFlags.operator_or (AccessFlags.enum AccessFlags.none) l = l
     /\ AccessFlags.operator_or l (AccessFlags.enum AccessFlags.none) = l
     /\ AccessFlags.operator_and (AccessFlags.enum AccessFlags.none) l
       = AccessFlags.enum AccessFlags.none
     /\ AccessFlags.operator_and l (AccessFlags.enum AccessFlags.none)
       = AccessFlags.enum AccessFlags.none)
  /\ (forall l r : StorageFlags.t,
     StorageFlags.to_GLenum (StorageFlags.operator_or l r)
       = Z.lor (StorageFlags.to_GLenum l) (StorageFlags.to_GLenum r)
     /\ StorageFlags.to_GLenum (StorageFlags.operator_and l r)
       = Z.land (StorageFlags.to_GLenum l) (StorageFlags.to_GLenum r)
     /\ StorageFlags.operator_or l r = StorageFlags.operator_or r l
     /\ StorageFlags.operator_and l r = StorageFlags.operator_and r l
     /\ StorageFlags.operator_or (StorageFlags.enum StorageFlags.none) l = l
     /\ StorageFlags.operator_or l (StorageFlags.enum StorageFlags.none) = l
     /\ StorageFlags.operator_and (StorageFlags.enum StorageFlags.none) l
       = StorageFlags.enum StorageFlags.none
     /\ StorageFlags.operator_and l (StorageFlags.enum StorageFlags.none)
       = StorageFlags.enum StorageFlags.none).
Proof.
  split; intros [l] [r].
  - unfold AccessFlags.operator_or, AccessFlags.operator_and, AccessFlags.enum.
    cbn [AccessFlags.to_GLenum AccessFlags.value].
    rewrite (Z.lor_comm r l), (Z.land_comm r l), Z.lor_0_l, Z.lor_0_r,
      Z.land_0_l, Z.land_0_r.
    repeat split; reflexivity.
  - unfold StorageFlags.operator_or, StorageFlags.operator_and, StorageFlags.enum.
    cbn [StorageFlags.to_GLenum StorageFlags.value].
    rewrite (Z.lor_comm r l), (Z.land_comm r l), Z.lor_0_l, Z.lor_0_r,
      Z.land_0_l, Z.land_0_r.
    repeat split; reflexivity.
Qed.

(** C7.  Each overload that takes a [Range] is the base member applied
    to [range.offset] and [range.size] with the other arguments
    unchanged, whatever the base members do; so it results in exactly
    one invocation of its base member and in nothing else. *)
Theorem Range_overloads_forward {S : Type} (B : OutOfLine S)
    (self : BufferHandle) (range : Range) (data : Z)
    (access : AccessFlags.t) (target : IndexedTarget.t) (index : Z) :
  write_Range self range data = write self (offset range) (size range) data
  /\ read_Range self range data = read self (offset range) (size range) data
  /\ mapRange_Range self range access
     = mapRange self (offset range) (size range) access
  /\ bindRange_Range self target index range
     = bindRange self target index (offset range) (size range)
  /\ (forall log : list Invocation,
        write_Range (B := Recorder) self range data log
          = log ++ [Inv_write self (offset range) (size range) data]
        /\ read_Range (B := Recorder) self range data log
          = log ++ [Inv_read self (offset range) (size range) data]
        /\ snd (mapRange_Range (B := Recorder) self range access log)
          = log ++ [Inv_mapRange self (offset range) (size range) access]
        /\ bindRange_Range (B := Recorder) self target index range log
          = log ++ [Inv_bindRange self target index (offset range) (size range)]).
Proof.
  unfold write_Range, read_Range, mapRange_Range, bindRange_Range.
  repeat split; reflexivity.
Qed.

(** C9 (amended).  For an iterator range of at most [2^31 - 1] pairs,
    [bindRanges] is one invocation of [s_bindRange], with [count] the
    number of pairs and the three arrays listing, in iteration order, the
    buffer names, the range offsets and the range sizes; for the empty
    range, one invocation with [count] zero and empty arrays. *)
Theorem bindRanges_single_call {S : Type} (B : OutOfLine S)
    (target : IndexedTarget.t) (first_binding : Z)
    (range : list (BufferHandle * Range)) :
  Z.of_nat (length range) <= GLsizei_max ->
  bindRanges target first_binding range
    = s_bindRange target first_binding (Z.of_nat (length range))
        (map (fun p => getName (fst p)) range)
        (map (fun p => offset (snd p)) range)
        (map (fun p => size (snd p)) range)
  /\ (forall log : list Invocation,
        bindRanges (B := Recorder) target first_binding range log
          = log ++ [Inv_s_bindRange target first_binding (Z.of_nat (length range))
                      (map (fun p => getName (fst p)) range)
                      (map (fun p => offset (snd p)) range)
                      (map (fun p => size (snd p)) range)])
  /\ bindRanges target first_binding [] = s_bindRange target first_binding 0 [] [] [].
Proof.
  intros Hlen.
  assert (Hloop : bindRanges_loop range (mkLocals [] [] [] 0) =
            mkLocals (map (fun p => getName (fst p)) range)
                     (map (fun p => offset (snd p)) range)
                     (map (fun p => size (snd p)) range)
                     (Z.of_nat (length range))).
  { rewrite bindRanges_loop_eq by (cbn [count]; unfold GLsizei_max; lia).
    cbn [buffers offsets sizes count app]. f_equal.
    rewrite Z.add_0_l. apply GLsizei_wrap_id. lia. }
  unfold bindRanges. rewrite Hloop. cbn [buffers offsets sizes count].
  repeat split; reflexivity.
Qed.

(** C9, witness: two pairs bound to the uniform-buffer binding points. *)
Lemma bindRanges_single_call_witness :
  bindRanges (B := Recorder) IndexedTarget.uniform 0
    [(mkBufferHandle 3, mkRange 0 16); (mkBufferHandle 4, mkRange 16 32)] []
  = [Inv_s_bindRange IndexedTarget.uniform 0 2 [3; 4] [0; 16] [16; 32]].
Proof.
  assert (Hlen : Z.of_nat (length [(mkBufferHandle 3, mkRange 0 16);
                                   (mkBufferHandle 4, mkRange 16 32)])
                 <= GLsizei_max) by (vm_compute; discriminate).
  exact (proj1 (proj2 (bindRanges_single_call Recorder IndexedTarget.uniform 0 _ Hlen)) []).
Defined.

(** C9, as stated, fails: with [2^31] pairs the counter has wrapped, and
    the [count] passed on is [- 2^31]. *)
Lemma bindRanges_count_counterexample :
  exists c bs os ss,
    bindRanges (B := Recorder) IndexedTarget.uniform 0
      (replicate (Z.to_nat 2147483648) (mkBufferHandle 1, Range_default)) []
    = [Inv_s_bindRange IndexedTarget.uniform 0 c bs os ss]
    /\ c = -2147483648
    /\ Z.of_nat (length (replicate (Z.to_nat 2147483648)
                           (mkBufferHandle 1, Range_default)))
       = 2147483648.
Proof.
  assert (Hn : Z.of_nat (length (replicate (Z.to_nat 2147483648)
                                   (mkBufferHandle 1, Range_default)))
               = 2147483648).
  { rewrite length_replicate. apply Z2Nat.id. discriminate. }
  unfold bindRanges.
  rewrite bindRanges_loop_eq by (cbn [count]; unfold GLsizei_max; lia).
  cbn [buffers offsets sizes count s_bindRange Recorder app].
  rewrite Hn.
  do 4 eexists. split; [reflexivity|]. split; reflexivity.
Qed.

End WrapperClaims.


(** * The guard in use *)

Module GuardMoreProofs.
Import GuardModel GuardMore GuardProofs.

(** Storing into a live object does not change which objects are live. *)
Lemma dom_insert_live {A : Type} (o : gmap nat A) (p : nat) (x y : A) :
  o !! p = Some y -> dom (<[p := x]> o) = dom o.
Proof.
  intros Hp. rewrite dom_insert_L. apply subseteq_union_1_L.
  apply singleton_subseteq_l. exact (elem_of_dom_2 _ _ _ Hp).
Qed.

Section MoreFacts.
Context {H : Type} {HT : HandleType H} `{!EqDecision H}.
Implicit Types (w : World H) (this other : nat) (g : Guard H) (h : H)
  (cs : list (Call CreateArgs H)).

Abbreviation null := HandleType_default.

Lemma create_calls_app cs1 cs2 :
  create_calls (cs1 ++ cs2) = create_calls cs1 + create_calls cs2.
Proof.
  induction cs1 as [|[a r|h'] cs1 IH]; simpl; [reflexivity| |exact IH].
  rewrite IH. reflexivity.
Qed.

Lemma destroy_calls_app cs1 cs2 :
  destroy_calls (cs1 ++ cs2) = destroy_calls cs1 + destroy_calls cs2.
Proof.
  induction cs1 as [|[a r|h'] cs1 IH]; simpl; [reflexivity|exact IH|].
  rewrite IH. reflexivity.
Qed.

(** The calls one operation adds to the log. *)
Lemma exec_calls op w w' :
  exec op w = Some (tt, w') ->
  exists suffix,
    calls w' = calls w ++ suffix /\
    create_calls suffix = op_creates op /\
    destroy_calls suffix = op_destroys op /\
    length suffix = op_creates op + op_destroys op.
Proof.
  intros Hx. apply exec_inv in Hx.
  destruct op as [this args|this h|this other|this other|this|this h|this];
    simpl in Hx.
  - destruct Hx as [_ ->]. eexists. split; [reflexivity|]. auto.
  - destruct Hx as [_ ->]. exists []. simpl. rewrite app_nil_r. auto.
  - destruct Hx as (g & _ & _ & ->). exists []. simpl. rewrite app_nil_r. auto.
  - destruct Hx as (gd & gs & g1 & _ & _ & _ & ->).
    eexists. split; [reflexivity|]. auto.
  - destruct Hx as (g & _ & ->). exists []. simpl. rewrite app_nil_r. auto.
  - destruct Hx as (g & _ & ->). eexists. split; [reflexivity|]. auto.
  - destruct Hx as (g & _ & ->). eexists. split; [reflexivity|]. auto.
Qed.

(** X1.  Whatever the handles are, a sequence of operations only appends
    to the log of calls; it calls [HandleType::create] once per
    forwarding construction and [HandleType::destroy] once per move
    assignment, [reset] and destruction (the null handle included), and
    makes no other call. *)
Theorem Guard_calls_accounting (ops : list (Op H)) w w' :
  run ops w = Some (tt, w') ->
  exists suffix,
    calls w' = calls w ++ suffix /\
    create_calls suffix = sum_list (map op_creates ops) /\
    destroy_calls suffix = sum_list (map op_destroys ops) /\
    length suffix = create_calls suffix + destroy_calls suffix.
Proof.
  revert w. induction ops as [|op ops IH]; intros w; simpl.
  - intros [= <-]. exists []. rewrite app_nil_r. auto.
  - unfold bind. destruct (exec op w) as [[[] w1]|] eqn:Hx; [|discriminate].
    intros Hr. destruct (exec_calls _ _ _ Hx) as (s1 & E1 & C1 & D1 & L1).
    destruct (IH _ Hr) as (s2 & E2 & C2 & D2 & L2).
    exists (s1 ++ s2). rewrite E2, E1, <- app_assoc.
    rewrite create_calls_app, destroy_calls_app, length_app.
    repeat split; lia.
Qed.

(** X2.  An operation leaves every Guard it does not name as it was, and
    the set of live Guards changes only by the Guard a constructor
    starts or the destructor ends. *)
Theorem Guard_operation_frame (op : Op H) w w' :
  exec op w = Some (tt, w') ->
  (forall p, ~ In p (op_names op) -> objects w' !! p = objects w !! p)
  /\ dom (objects w') = op_live op (dom (objects w)).
Proof.
  intros Hx. apply exec_inv in Hx.
  destruct op as [this args|this h|this other|this other|this|this h|this];
    simpl in Hx |- *.
  - destruct Hx as [_ ->]. simpl. split; [|apply dom_insert_L].
    intros p Hp. apply lookup_insert_ne. tauto.
  - destruct Hx as [_ ->]. simpl. split; [|apply dom_insert_L].
    intros p Hp. apply lookup_insert_ne. tauto.
  - destruct Hx as (g & _ & Ho & ->). simpl. split.
    + intros p Hp. rewrite !lookup_insert_ne by tauto. reflexivity.
    + rewrite dom_insert_L, (dom_insert_live _ _ _ _ Ho). reflexivity.
  - destruct Hx as (gd & gs & g1 & Et & Ho & E1 & ->). simpl. split.
    + intros p Hp. rewrite !lookup_insert_ne by tauto. reflexivity.
    + rewrite (dom_insert_live _ _ _ _ E1). apply (dom_insert_live _ _ _ _ Ho).
  - destruct Hx as (g & Et & ->). simpl. split.
    + intros p Hp. apply lookup_insert_ne. tauto.
    + apply (dom_insert_live _ _ _ _ Et).
  - destruct Hx as (g & Et & ->). simpl. split.
    + intros p Hp. apply lookup_insert_ne. tauto.
    + apply (dom_insert_live _ _ _ _ Et).
  - destruct Hx as (g & Et & ->). simpl. split; [|apply dom_delete_L].
    intros p Hp. apply lookup_delete_ne. tauto.
Qed.

Lemma created_after_destroy h h' cs :
  created h (cs ++ [CallDestroy h']) -> created h cs.
Proof.
  intros [args Hin]. exists args. apply in_app_or in Hin.
  destruct Hin as [Hin|[Hin|[]]]; [exact Hin|discriminate Hin].
Qed.

Lemma created_after_create h cs a r :
  created h (cs ++ [CallCreate a r]) -> created h cs \/ r = h.
Proof.
  intros [args Hin]. apply in_app_or in Hin.
  destruct Hin as [Hin|[Hin|[]]]; [left; exists args; exact Hin|].
  right. congruence.
Qed.

(** Destroying the handle a Guard holds, seen from a handle [h]. *)
Lemma destroy_held_count o cs p g h :
  owned_not_destroyed (mkWorld o cs) ->
  o !! p = Some g ->
  h <> null ->
  (m_handle g = h -> destroy_count h (cs ++ [CallDestroy (m_handle g)]) = 1)
  /\ (destroy_count h cs = 1 ->
      destroy_count h (cs ++ [CallDestroy (m_handle g)]) = 1).
Proof.
  intros J3 Hp Hh. destruct g as [hg]. simpl. split.
  - intros ->. rewrite destroy_count_destroy_eq. f_equal. exact (J3 p h Hh Hp).
  - intros Hc. rewrite destroy_count_destroy_ne; [exact Hc|].
    intros ->. pose proof (J3 p h Hh Hp) as E. simpl in E. congruence.
Qed.

Lemma exec_accounted w op w' :
  ownership_invariant w ->
  accounted w ->
  is_release op = false ->
  exec op w = Some (tt, w') ->
  accounted w'.
Proof.
  intros (J1 & J2 & J3) K Hrel Hx. apply exec_inv in Hx. destruct w as [o cs].
  unfold accounted, owns in *.
  destruct op as [this args|this hh|this other|this other|this|this hh|this];
    simpl in *; try discriminate; intros h Hh Hc.
  - destruct Hx as [Et ->]. simpl in *.
    destruct (created_after_create _ _ _ _ Hc) as [Hc'| ->].
    + destruct (K h Hh Hc') as [[p Hp]|Hcnt].
      * left. exists p. rewrite lookup_insert_ne by congruence. exact Hp.
      * right. rewrite destroy_count_create. exact Hcnt.
    + left. exists this. apply lookup_insert_eq.
  - destruct Hx as [Et ->]. simpl in *.
    destruct (K h Hh Hc) as [[p Hp]|Hcnt]; [left|right; exact Hcnt].
    exists p. rewrite lookup_insert_ne by congruence. exact Hp.
  - destruct Hx as (g & Et & Ho & ->). simpl in *.
    destruct (K h Hh Hc) as [[p Hp]|Hcnt]; [left|right; exact Hcnt].
    destruct (decide (p = other)) as [->|Hne].
    + exists this. rewrite lookup_insert_eq.
      replace g with (mkGuard h) by congruence. reflexivity.
    + exists p. rewrite !lookup_insert_ne by congruence. exact Hp.
  - destruct Hx as (gd & gs & g1 & Et & Ho & E1 & ->). simpl in *.
    apply created_after_destroy in Hc.
    assert (Hg1 : this <> other -> g1 = gd).
    { intros Hne. rewrite lookup_insert_ne in E1 by congruence. congruence. }
    destruct (K h Hh Hc) as [[p Hp]|Hcnt].
    + destruct (decide (p = other)) as [->|Hpo].
      * left. exists this. rewrite lookup_insert_eq.
        replace gs with (mkGuard h) by congruence. reflexivity.
      * destruct (decide (p = this)) as [->|Hpt].
        -- right. rewrite (Hg1 Hpo).
           apply (proj1 (destroy_held_count o cs this gd h J3 Et Hh)).
           replace gd with (mkGuard h) by congruence. reflexivity.
        -- left. exists p. rewrite !lookup_insert_ne by congruence. exact Hp.
    + right. destruct (decide (this = other)) as [->|Hne].
      * rewrite lookup_insert_eq in E1. injection E1 as <-. simpl.
        rewrite destroy_count_destroy_ne by congruence. exact Hcnt.
      * rewrite (Hg1 Hne).
        apply (proj2 (destroy_held_count o cs this gd h J3 Et Hh)). exact Hcnt.
  - destruct Hx as (g & Et & ->). simpl in *.
    apply created_after_destroy in Hc.
    destruct (K h Hh Hc) as [[p Hp]|Hcnt].
    + destruct (decide (p = this)) as [->|Hpt].
      * right. apply (proj1 (destroy_held_count o cs this g h J3 Et Hh)).
        replace g with (mkGuard h) by congruence. reflexivity.
      * left. exists p. rewrite lookup_insert_ne by congruence. exact Hp.
    + right. apply (proj2 (destroy_held_count o cs this g h J3 Et Hh)). exact Hcnt.
  - destruct Hx as (g & Et & ->). simpl in *.
    apply created_after_destroy in Hc.
    destruct (K h Hh Hc) as [[p Hp]|Hcnt].
    + destruct (decide (p = this)) as [->|Hpt].
      * right. apply (proj1 (destroy_held_count o cs this g h J3 Et Hh)).
        replace g with (mkGuard h) by congruence. reflexivity.
      * left. exists p. rewrite lookup_delete_ne by congruence. exact Hp.
    + right. apply (proj2 (destroy_held_count o cs this g h J3 Et Hh)). exact Hcnt.
Qed.

Lemma disciplined_accounted w ops w' :
  disciplined w ops w' ->
  Forall (fun op => is_release op = false) ops ->
  ownership_invariant w -> accounted w ->
  ownership_invariant w' /\ accounted w'.
Proof.
  induction 1 as [w|w op w1 ops w2 Hadm Hx _ IH]; intros Hall J K; [tauto|].
  apply Forall_cons in Hall. destruct Hall as [Hop Hall].
  apply (IH Hall).
  - exact (exec_invariant w op w1 J Hadm Hx).
  - exact (exec_accounted w op w1 J K Hop Hx).
Qed.

(** X3.  No leak: along a run in which no Guard is released and every
    handle entering a Guard from outside is null or unowned and
    undestroyed, each non-null handle that [HandleType::create] returned
    is either held by a live Guard and not destroyed, or held by none
    and destroyed exactly once.  So once every Guard has been destroyed,
    every created handle has been destroyed exactly once. *)
Theorem Guard_no_leak (ops : list (Op H)) w h :
  disciplined World_initial ops w ->
  Forall (fun op => is_release op = false) ops ->
  h <> null ->
  created h (calls w) ->
  (exists p, owns w p h /\ destroy_count h (calls w) = 0)
  \/ ((forall p, ~ owns w p h) /\ destroy_count h (calls w) = 1).
Proof.
  intros Hd Hall Hh Hc.
  destruct (disciplined_accounted _ _ _ Hd Hall invariant_initial)
    as [(J1 & J2 & J3) K].
  { intros h' _ [args []]. }
  destruct (K h Hh Hc) as [[p Hp]|Hcnt].
  - left. exists p. split; [exact Hp|exact (J3 p h Hh Hp)].
  - right. split; [|exact Hcnt].
    intros p Hp. pose proof (J3 p h Hh Hp). lia.
Qed.

(** X5.  [getHandle] and [operator*] are the same observer: they return
    the stored handle and change nothing.  After [reset(h)] they return
    [h]; [release] returns what they returned just before, and after it
    they return the null handle. *)
Theorem Guard_accessors_observe w this g h :
  objects w !! this = Some g ->
  getHandle this w = Some (m_handle g, w)
  /\ operator_star this w = getHandle this w
  /\ bind (reset this h) (fun _ => getHandle this) w =
       Some (h, mkWorld (<[this := mkGuard h]> (objects w))
                        (calls w ++ [CallDestroy (m_handle g)]))
  /\ bind (release this) (fun r => bind (operator_star this)
                                     (fun now => ret (r, now))) w =
       Some ((m_handle g, null),
             mkWorld (<[this := mkGuard null]> (objects w)) (calls w)).
Proof.
  intros E. split; [|split; [|split]].
  - unfold getHandle, read_m_handle. rewrite E. reflexivity.
  - reflexivity.
  - unfold bind. rewrite (reset_eq _ _ _ h E).
    unfold getHandle, read_m_handle. simpl. rewrite lookup_insert_eq. reflexivity.
  - unfold bind. rewrite (release_eq _ _ _ E).
    unfold operator_star, read_m_handle, ret. simpl.
    rewrite lookup_insert_eq. reflexivity.
Qed.

(** X4.  [std::swap] of two live Guards (or of a Guard with itself)
    exchanges the handles they hold, leaves every other Guard alone, and
    calls [destroy] three times, each time on the null handle. *)
Theorem Guard_swap_exchanges w (a b tmp : nat) (ga gb : Guard H) :
  objects w !! a = Some ga ->
  objects w !! b = Some gb ->
  objects w !! tmp = None ->
  swap a b tmp w =
    Some (tt, mkWorld (<[a := gb]> (<[b := ga]> (objects w)))
                      (calls w ++ [CallDestroy null; CallDestroy null;
                                   CallDestroy null])).
Proof.
  intros Ea Eb Et.
  assert (Hat : a <> tmp) by congruence.
  assert (Hbt : b <> tmp) by congruence.
  destruct ga as [ha], gb as [hb].
  unfold swap. unfold bind at 1.
  rewrite (Guard_ctor_move_eq _ _ _ _ Et Ea). cbn [m_handle].
  unfold bind at 1.
  destruct (decide (a = b)) as [<-|Hab].
  - assert (hb = ha) as -> by congruence.
    erewrite operator_assign_self_eq
      by (cbn [objects]; rewrite lookup_insert_ne by congruence;
          apply lookup_insert_eq).
    cbn [objects calls]. unfold bind at 1.
    erewrite operator_assign_eq;
      [|exact Hat
       |cbn [objects]; rewrite lookup_insert_ne by congruence; apply lookup_insert_eq
       |cbn [objects]; apply lookup_insert_eq].
    cbn [objects calls m_handle].
    erewrite Guard_dtor_eq
      by (cbn [objects]; rewrite lookup_insert_ne by congruence;
          apply lookup_insert_eq).
    cbn [objects calls m_handle]. rewrite <- !app_assoc. cbn [app].
    do 3 f_equal. apply map_eq. intros k.
    destruct (decide (k = a)) as [->|Hka].
    + rewrite lookup_delete_ne by congruence. rewrite !lookup_insert_eq. reflexivity.
    + destruct (decide (k = tmp)) as [->|Hkt].
      * rewrite lookup_delete_eq, !lookup_insert_ne by congruence. congruence.
      * rewrite lookup_delete_ne by congruence.
        rewrite !lookup_insert_ne by congruence. reflexivity.
  - erewrite operator_assign_eq;
      [|exact Hab
       |cbn [objects]; rewrite lookup_insert_ne by congruence; apply lookup_insert_eq
       |cbn [objects]; rewrite !lookup_insert_ne by congruence; exact Eb].
    cbn [objects calls m_handle]. unfold bind at 1.
    erewrite operator_assign_eq;
      [|exact Hbt
       |cbn [objects]; rewrite lookup_insert_ne by congruence; apply lookup_insert_eq
       |cbn [objects]; rewrite !lookup_insert_ne by congruence; apply lookup_insert_eq].
    cbn [objects calls m_handle].
    erewrite Guard_dtor_eq
      by (cbn [objects]; rewrite lookup_insert_ne by congruence;
          apply lookup_insert_eq).
    cbn [objects calls m_handle]. rewrite <- !app_assoc. cbn [app].
    do 3 f_equal. apply map_eq. intros k.
    destruct (decide (k = tmp)) as [->|Hkt].
    + rewrite lookup_delete_eq, !lookup_insert_ne by congruence. congruence.
    + rewrite lookup_delete_ne by congruence.
      destruct (decide (k = a)) as [->|Hka].
      * rewrite (lookup_insert_ne _ b) by congruence.
        rewrite (lookup_insert_ne _ tmp) by congruence.
        rewrite !lookup_insert_eq. reflexivity.
      * destruct (decide (k = b)) as [->|Hkb].
        -- rewrite lookup_insert_eq. rewrite (lookup_insert_ne _ a) by congruence.
           rewrite lookup_insert_eq. reflexivity.
        -- rewrite !lookup_insert_ne by congruence. reflexivity.
Qed.

(** X10.  No dangling handle: along a run in which every handle
    entering a Guard from outside is null or unowned and undestroyed, a
    non-null handle held by a live Guard has never been passed to
    [HandleType::destroy]. *)
Theorem Guard_held_handle_not_destroyed (ops : list (Op H)) w (p : nat) h :
  disciplined World_initial ops w ->
  owns w p h ->
  h <> null ->
  destroy_count h (calls w) = 0.
Proof.
  intros Hd Hp Hh.
  destruct (disciplined_invariant _ _ _ Hd invariant_initial) as (_ & _ & J3).
  exact (J3 p h Hh Hp).
Qed.

End MoreFacts.

Section MoreWitnesses.
#[local] Existing Instance NameHandle.

(** X1, witness: [example_ops] has two forwarding constructions and five
    operations that destroy. *)
Lemma Guard_calls_accounting_witness :
  exists w suffix,
    run example_ops World_initial = Some (tt, w) /\
    calls w = calls World_initial ++ suffix /\
    create_calls suffix = 2 /\ destroy_calls suffix = 5.
Proof.
  assert (Hrun : {w | run example_ops World_initial = Some (tt, w)})
    by (eexists; vm_compute; reflexivity).
  destruct Hrun as [w Hrun]. exists w.
  destruct (Guard_calls_accounting example_ops World_initial w Hrun)
    as (suffix & E & C & D & _).
  exists suffix. split; [exact Hrun|]. split; [exact E|]. split; [exact C|exact D].
Defined.

(** X2, witness: [a.reset(9)] with [a] at address 0 leaves the Guard at
    address 1 alone. *)
Lemma Guard_operation_frame_witness :
  objects (mkWorld (<[0 := mkGuard 9]> (objects two_guards)) [CallDestroy 5]) !! 1
    = objects two_guards !! 1
  /\ dom (objects (mkWorld (<[0 := mkGuard 9]> (objects two_guards)) [CallDestroy 5]))
    = dom (objects two_guards).
Proof.
  assert (Hx : exec (OpReset 0 9) two_guards =
               Some (tt, mkWorld (<[0 := mkGuard 9]> (objects two_guards))
                                 [CallDestroy 5]))
    by (vm_compute; reflexivity).
  destruct (Guard_operation_frame (OpReset 0 9) two_guards _ Hx) as [Hf Hd].
  split; [|exact Hd].
  apply Hf. simpl. intros [E|[]]. discriminate E.
Defined.

(** X3, witness: at the end of [managed_ops] the first created handle is
    held by no Guard and has been destroyed once. *)
Lemma Guard_no_leak_witness :
  (exists p,
     owns (mkWorld ∅ [CallCreate tt 1; CallCreate tt 2; CallDestroy 2;
                      CallDestroy 1; CallDestroy 0; CallDestroy 0]) p 1 /\
     destroy_count 1 [CallCreate tt 1; CallCreate tt 2; CallDestroy 2;
                      CallDestroy 1; CallDestroy 0; CallDestroy 0] = 0)
  \/ ((forall p,
        ~ owns (mkWorld ∅ [CallCreate tt 1; CallCreate tt 2; CallDestroy 2;
                           CallDestroy 1; CallDestroy 0; CallDestroy 0]) p 1) /\
      destroy_count 1 [CallCreate tt 1; CallCreate tt 2; CallDestroy 2;
                       CallDestroy 1; CallDestroy 0; CallDestroy 0] = 1).
Proof.
  apply (Guard_no_leak managed_ops).
  - apply run_disciplined_sound. vm_compute. reflexivity.
  - repeat constructor.
  - discriminate.
  - exists tt. left. reflexivity.
Defined.

(** X4, witness: swapping the Guards holding 5 and 6. *)
Lemma Guard_swap_exchanges_witness :
  swap 0 1 2 two_guards =
    Some (tt, mkWorld (<[0 := mkGuard 6]> (<[1 := mkGuard 5]> (objects two_guards)))
                      [CallDestroy 0; CallDestroy 0; CallDestroy 0]).
Proof.
  exact (Guard_swap_exchanges two_guards 0 1 2 (mkGuard 5) (mkGuard 6)
           eq_refl eq_refl eq_refl).
Defined.

(** X5, witness: the Guard holding 6. *)
Lemma Guard_accessors_observe_witness :
  getHandle 1 two_guards = Some (6, two_guards)
  /\ operator_star 1 two_guards = getHandle 1 two_guards.
Proof.
  pose proof (Guard_accessors_observe two_guards 1 (mkGuard 6) 9 eq_refl)
    as (Hg & Hs & _).
  split; [exact Hg|exact Hs].
Defined.

(** X10, witness: after [Guard a; Guard b(std::move(a));] the Guard
    [b] holds the created name 1, which has not been destroyed. *)
Lemma Guard_held_handle_not_destroyed_witness :
  owns (mkWorld (<[1 := mkGuard 1]> (<[0 := mkGuard 0]> ∅)) [CallCreate tt 1]) 1 1
  /\ destroy_count 1 [CallCreate tt 1] = 0.
Proof.
  assert (Hp : owns (mkWorld (<[1 := mkGuard 1]> (<[0 := mkGuard 0]> ∅))
                             [CallCreate tt 1]) 1 1) by reflexivity.
  split; [exact Hp|].
  refine (Guard_held_handle_not_destroyed [OpCtor 0 tt; OpCtorMove 1 0] _ 1 1
            (run_disciplined_sound _ _ _ _) Hp _);
    [vm_compute; reflexivity|discriminate].
Defined.

End MoreWitnesses.

End GuardMoreProofs.

(** * [bindBases] and the enumerations *)

Module BufferMoreProofs.
Import GL Buffer VertexArray BufferMore WrapperClaims.
#[local] Open Scope Z_scope.

(** What the loop of [bindBases] leaves in its variables. *)
Lemma bindBases_loop_eq (iter : list BufferHandle) (loc : bindBases_locals) :
  - 2 ^ 31 <= bases_count loc <= GLsizei_max ->
  bindBases_loop iter loc =
    mkBasesLocals (bases_buffers loc ++ map getName iter)
                  (GLsizei_wrap (bases_count loc + Z.of_nat (length iter))).
Proof.
  revert loc. induction iter as [|buffer iter IH]; intros loc Hc.
  - simpl. rewrite app_nil_r, Z.add_0_r, (GLsizei_wrap_id _ Hc).
    destruct loc; reflexivity.
  - cbn [bindBases_loop]. rewrite IH by apply GLsizei_wrap_range.
    cbn [bases_buffers bases_count map length].
    rewrite <- app_assoc. cbn [app].
    rewrite GLsizei_wrap_succ. do 2 f_equal. lia.
Qed.

(** X6.  For at most [2^31 - 1] buffers, [bindBases] is one invocation
    of [s_bindBases], with [count] the number of buffers and the array
    listing their names in iteration order; for no buffer at all, one
    invocation with [count] zero and an empty array. *)
Theorem bindBases_single_call {S : Type} (B : OutOfLineBases S)
    (target : IndexedTarget.t) (first_binding : Z) (range : list BufferHandle) :
  Z.of_nat (length range) <= GLsizei_max ->
  bindBases target first_binding range
    = s_bindBases target first_binding (Z.of_nat (length range)) (map getName range)
  /\ (forall log : list BasesInvocation,
        bindBases (B := BasesRecorder) target first_binding range log
          = log ++ [mkBasesInvocation target first_binding
                      (Z.of_nat (length range)) (map getName range)])
  /\ bindBases target first_binding [] = s_bindBases target first_binding 0 [].
Proof.
  intros Hlen.
  assert (Hloop : bindBases_loop range (mkBasesLocals [] 0) =
            mkBasesLocals (map getName range) (Z.of_nat (length range))).
  { rewrite bindBases_loop_eq by (cbn [bases_count]; unfold GLsizei_max; lia).
    cbn [bases_buffers bases_count app]. f_equal.
    rewrite Z.add_0_l. apply GLsizei_wrap_id. lia. }
  unfold bindBases. rewrite Hloop. cbn [bases_buffers bases_count].
  repeat split; reflexivity.
Qed.

(** X6, witness: two buffers bound to the shader-storage binding points
    from index 4 on. *)
Lemma bindBases_single_call_witness :
  bindBases (B := BasesRecorder) IndexedTarget.shader_storage 4
    [mkBufferHandle 7; mkBufferHandle 9] []
  = [mkBasesInvocation IndexedTarget.shader_storage 4 2 [7; 9]].
Proof.
  assert (Hlen : Z.of_nat (length [mkBufferHandle 7; mkBufferHandle 9])
                 <= GLsizei_max) by (vm_compute; discriminate).
  exact (proj1 (proj2 (bindBases_single_call BasesRecorder
                         IndexedTarget.shader_storage 4 _ Hlen)) []).
Defined.

(** X7.  Whatever the range of pairs, [bindRanges] passes on three
    arrays with one entry per pair, and the buffer names and the [count]
    it passes are those [bindBases] passes for the buffers of the
    pairs. *)
Theorem bindRanges_agrees_with_bindBases
    (target : IndexedTarget.t) (first_binding : Z)
    (range : list (BufferHandle * Range)) :
  exists c bs os ss,
    bindRanges (B := Recorder) target first_binding range []
      = [Inv_s_bindRange target first_binding c bs os ss]
    /\ bindBases (B := BasesRecorder) target first_binding (map fst range) []
      = [mkBasesInvocation target first_binding c bs]
    /\ length bs = length range
    /\ length os = length range
    /\ length ss = length range.
Proof.
  unfold bindRanges, bindBases.
  rewrite bindRanges_loop_eq by (cbn [count]; unfold GLsizei_max; lia).
  rewrite bindBases_loop_eq by (cbn [bases_count]; unfold GLsizei_max; lia).
  cbn [buffers offsets sizes count bases_buffers bases_count app
       s_bindRange s_bindBases Recorder BasesRecorder].
  do 4 eexists. split; [reflexivity|].
  rewrite !length_map, map_map. repeat split; reflexivity.
Qed.

(** X8.  In each enumeration of the two headers, distinct enumerators
    have distinct underlying values, so a value read back from OpenGL
    names at most one enumerator. *)
Theorem enumerator_values_distinct :
  (forall e1 e2, BufferParameter.value e1 = BufferParameter.value e2 -> e1 = e2)
  /\ (forall e1 e2, AccessMode.value e1 = AccessMode.value e2 -> e1 = e2)
  /\ (forall e1 e2, AccessFlags.value e1 = AccessFlags.value e2 -> e1 = e2)
  /\ (forall e1 e2, Usage.value e1 = Usage.value e2 -> e1 = e2)
  /\ (forall e1 e2, StorageFlags.value e1 = StorageFlags.value e2 -> e1 = e2)
  /\ (forall e1 e2, IndexedTarget.value e1 = IndexedTarget.value e2 -> e1 = e2)
  /\ (forall e1 e2, AttribSize.value e1 = AttribSize.value e2 -> e1 = e2)
  /\ (forall e1 e2, AttribType.value e1 = AttribType.value e2 -> e1 = e2).
Proof.
  repeat split; intros e1 e2; destruct e1, e2; intros E;
    try reflexivity; vm_compute in E; discriminate E.
Qed.

(** X9.  Every enumerator of [AccessFlags] and of [StorageFlags] other
    than [none] is a single bit (within the low 8, respectively 10,
    bits), two distinct enumerators of one enumeration share no bit, and
    the four mapping bits have the same value in both enumerations. *)
Theorem flag_enumerators_are_disjoint_bits :
  (forall e, e <> AccessFlags.none ->
     AccessFlags.value e = 2 ^ Z.log2 (AccessFlags.value e)
     /\ 0 <= Z.log2 (AccessFlags.value e) < 8)
  /\ (forall e1 e2, e1 <> e2 ->
        Z.land (AccessFlags.value e1) (AccessFlags.value e2) = 0)
  /\ (forall e, e <> StorageFlags.none ->
        StorageFlags.value e = 2 ^ Z.log2 (StorageFlags.value e)
        /\ 0 <= Z.log2 (StorageFlags.value e) < 10)
  /\ (forall e1 e2, e1 <> e2 ->
        Z.land (StorageFlags.value e1) (StorageFlags.value e2) = 0)
  /\ AccessFlags.value AccessFlags.read = StorageFlags.value StorageFlags.map_read
  /\ AccessFlags.value AccessFlags.write = StorageFlags.value StorageFlags.map_write
  /\ AccessFlags.value AccessFlags.persistent
     = StorageFlags.value StorageFlags.map_persistent
  /\ AccessFlags.value AccessFlags.coherent
     = StorageFlags.value StorageFlags.map_coherent.
Proof.
  split; [|split; [|split; [|split]]].
  - intros e He. destruct e; try congruence; vm_compute; intuition discriminate.
  - intros e1 e2 He. destruct e1, e2; try congruence; reflexivity.
  - intros e He. destruct e; try congruence; vm_compute; intuition discriminate.
  - intros e1 e2 He. destruct e1, e2; try congruence; reflexivity.
  - repeat split; reflexivity.
Qed.

End BufferMoreProofs.
